(** * Verification of the directory-tree replicator [Run.py]

    The script copies a source directory tree [COPIES] times into a target
    tree, renaming every copy of a file [stem.ext] to [stem_copy<i>.ext].
    We embed the script together with the parts of the Python library it
    relies on ([ntpath.splitext], [os.makedirs], [shutil.copy], [os.walk])
    over a finite-map model of the filesystem. *)

From Stdlib Require Import Ascii String ZArith.
From stdpp Require Import base gmap list strings pretty.

Open Scope Z_scope.

(* ================================================================== *)
(** ** Python strings: [os.path.splitext] and the new file name *)
(* ================================================================== *)

Module PyStr.

(** Characters of a Python [str]. *)
Definition chars (s : string) : list ascii := list_ascii_of_string s.

(** [str.rfind(c)]: index of the last occurrence of [c], or [-1]. *)
Fixpoint rfind_go (l : list ascii) (c : ascii) (i acc : Z) : Z :=
  match l with
  | [] => acc
  | a :: l' => rfind_go l' c (i + 1) (if ascii_dec a c then i else acc)
  end.

Definition rfind (l : list ascii) (c : ascii) : Z := rfind_go l c 0 (-1).

(** The loop [while filenameIndex < dotIndex: ...] of
    [genericpath._splitext]; [steps] is [dotIndex - filenameIndex].  The
    result is [true] when the loop meets a character other than [extsep],
    i.e. when [_splitext] returns [p[:dotIndex], p[dotIndex:]]. *)
Fixpoint skip_leading (l : list ascii) (extsep : ascii)
    (filenameIndex : nat) (steps : nat) : bool :=
  match steps with
  | O => false
  | S steps' =>
      if decide (l !! filenameIndex = Some extsep)
      then skip_leading l extsep (S filenameIndex) steps'
      else true
  end.

(** [genericpath._splitext(p, sep, altsep, extsep)]. *)
Definition genericpath_splitext (p : string) (sep altsep extsep : ascii)
    : string * string :=
  let l := chars p in
  let sepIndex := Z.max (rfind l sep) (rfind l altsep) in
  let dotIndex := rfind l extsep in
  if sepIndex <? dotIndex then
    let filenameIndex := Z.to_nat (sepIndex + 1) in
    if skip_leading l extsep filenameIndex (Z.to_nat dotIndex - filenameIndex)
    then (string_of_list_ascii (take (Z.to_nat dotIndex) l),
          string_of_list_ascii (drop (Z.to_nat dotIndex) l))
    else (p, EmptyString)
  else (p, EmptyString).

(** [ntpath.splitext] (the script runs on Windows paths):
    [sep = '\\'], [altsep = '/'], [extsep = '.']. *)
Definition splitext (p : string) : string * string :=
  genericpath_splitext p "\"%char "/"%char "."%char.

(** Lines 17-20 of Run.py:
    [name, ext = os.path.splitext(file)];
    [new_filename = f"{name}_copy{i}{ext}"]. *)
Definition new_filename (file : string) (i : nat) : string :=
  let '(name, ext) := splitext file in
  (name +:+ "_copy" +:+ pretty i +:+ ext)%string.

(** A directory entry name as returned by [os.scandir]: no separator. *)
Definition sep_free (f : string) : Prop :=
  ("\"%char ∉ chars f) ∧ ("/"%char ∉ chars f).

Definition is_digit (c : ascii) : Prop :=
  c ∈ ["0";"1";"2";"3";"4";"5";"6";"7";"8";"9"]%char.

End PyStr.

(* ================================================================== *)
(** ** The filesystem and the library calls of the script *)
(* ================================================================== *)

Module Fs.
Import PyStr.

(** An absolute path as its list of components; [[]] is the filesystem
    root.  Entry names never contain a separator. *)
Abbreviation path := (list string).

(** A directory entry, with the permission bits that matter here.  A
    directory is [readable] when [os.scandir] can list it, and [writable]
    when entries can be created in it.  A file is [owned] when the running
    user owns it, so that [os.chmod] may change its mode. *)
Inductive node :=
  | Dir (readable writable : bool)
  | File (readable writable owned : bool) (data : list Byte.byte).

(** The filesystem: every existing path other than the root, with its
    node. *)
Abbreviation fs := (gmap path node).

Inductive pyerr :=
  | FileExistsError | FileNotFoundError | NotADirectoryError
  | IsADirectoryError | PermissionError | SameFileError
  | OSError_ENOSPC.

(** The disk holding the filesystem: the data of all the files takes at
    most [capacity] bytes. *)
#[projections(primitive=no)] Class Disk := { capacity : nat }.

(** Outcome of a statement: it completes, or it raises an exception,
    leaving the filesystem as it is at that moment. *)
Inductive res :=
  | Ok (s : fs)
  | Err (e : pyerr) (s : fs).

Definition bind (r : res) (k : fs → res) : res :=
  match r with
  | Ok s => k s
  | Err e s => Err e s
  end.

(** A [for] loop whose body may raise. *)
Fixpoint fold_res {A} (f : A → fs → res) (l : list A) (s : fs) : res :=
  match l with
  | [] => Ok s
  | x :: l' => bind (f x s) (fold_res f l')
  end.

Definition parent (p : path) : path := removelast p.
Definition basename (p : path) : string := List.last p EmptyString.

(** [os.stat]: the root is an existing writable directory. *)
Definition stat (s : fs) (p : path) : option node :=
  match p with
  | [] => Some (Dir true true)
  | _ => s !! p
  end.

Definition exists_ (s : fs) (p : path) : bool :=
  match stat s p with Some _ => true | None => false end.

Definition isdir (s : fs) (p : path) : bool :=
  match stat s p with Some (Dir _ _) => true | _ => false end.

(** Whether [os.scandir(p)] succeeds: [p] is a directory that can be
    read. *)
Definition listable (s : fs) (p : path) : bool :=
  match stat s p with Some (Dir r _) => r | _ => false end.

(** Bytes taken by the data of the files. *)
Definition size (n : node) : nat :=
  match n with File _ _ _ d => length d | Dir _ _ => 0%nat end.

Definition usage (s : fs) : nat := map_fold (λ _ n acc, size n + acc)%nat 0%nat s.

(** [os.mkdir(p)]. *)
Definition mkdir (p : path) (s : fs) : res :=
  match stat s p with
  | Some _ => Err FileExistsError s
  | None =>
      match stat s (parent p) with
      | None => Err FileNotFoundError s
      | Some (File _ _ _ _) => Err NotADirectoryError s
      | Some (Dir _ w) => if w then Ok (<[p := Dir true true]> s) else Err PermissionError s
      end
  end.

(** [os.makedirs(name, exist_ok=True)], by recursion on the reversed
    path ([rp = rev name]):
<<
    head, tail = path.split(name)
    if head and tail and not path.exists(head):
        try:
            makedirs(head, exist_ok=exist_ok)
        except FileExistsError:
            pass
    try:
        mkdir(name, mode)
    except OSError:
        if not exist_ok or not path.isdir(name):
            raise
>>
    (the [tail == curdir] early return does not apply: components are
    never ["."]).  For the root, [mkdir] fails and [isdir] holds. *)
Fixpoint makedirs_rev (rp : list string) (s : fs) : res :=
  match rp with
  | [] => Ok s
  | _ :: rhead =>
      let name := rev rp in
      let head := rev rhead in
      bind (if exists_ s head then Ok s
            else match makedirs_rev rhead s with
                 | Err FileExistsError s' => Ok s'
                 | r => r
                 end)
        (λ s, match mkdir name s with
              | Ok s' => Ok s'
              | Err e s' => if isdir s' name then Ok s' else Err e s'
              end)
  end.

Definition makedirs (name : path) (s : fs) : res := makedirs_rev (rev name) s.

(** Writing [data] to the file [dst] just opened with [open(dst, 'wb')]
    (created, or truncated to no data) with the mode bits [r w] and owner
    flag [o]: when the disk has room for fewer bytes than [data], the
    write raises [OSError] with [ENOSPC] after filling it, and [dst] keeps
    the bytes written. *)
Definition write_file `{Disk} (dst : path) (r w o : bool) (data : list Byte.byte)
    (s : fs) : res :=
  let free := (capacity - usage (<[dst := File r w o []]> s))%nat in
  if decide (length data ≤ free)%nat then Ok (<[dst := File r w o data]> s)
  else Err OSError_ENOSPC (<[dst := File r w o (take free data)]> s).

(** [shutil.copyfile(src, dst)]: [open(src, 'rb')], then
    [open(dst, 'wb')] (create or truncate) and write the bytes. *)
Definition copyfile `{Disk} (src dst : path) (s : fs) : res :=
  if bool_decide (src = dst) && exists_ s src then Err SameFileError s else
  match stat s src with
  | None => Err FileNotFoundError s
  | Some (Dir _ _) => Err IsADirectoryError s
  | Some (File r _ _ data) =>
      if negb r then Err PermissionError s else
      match stat s dst with
      | Some (Dir _ _) => Err IsADirectoryError s
      | Some (File dr dw downed _) =>
          if dw then write_file dst dr dw downed data s else Err PermissionError s
      | None =>
          match stat s (parent dst) with
          | None => Err FileNotFoundError s
          | Some (File _ _ _ _) => Err NotADirectoryError s
          | Some (Dir _ pw) =>
              if pw then write_file dst true true true data s
              else Err PermissionError s
          end
      end
  end.

(** [shutil.copymode(src, dst)]: [os.chmod] gives [dst] the permission
    bits of [src]; it raises [PermissionError] when the running user does
    not own [dst]. *)
Definition copymode (src dst : path) (s : fs) : res :=
  match stat s src, stat s dst with
  | Some (File r w _ _), Some (File _ _ o d) =>
      if o then Ok (<[dst := File r w o d]> s) else Err PermissionError s
  | _, _ => Ok s
  end.

(** [shutil.copy(src, dst)]:
<<
    if os.path.isdir(dst):
        dst = os.path.join(dst, os.path.basename(src))
    copyfile(src, dst)
    copymode(src, dst)
>> *)
Definition copy `{Disk} (src dst : path) (s : fs) : res :=
  let dst := if isdir s dst then dst ++ [basename src] else dst in
  bind (copyfile src dst s) (copymode src dst).

(** The names listed by [os.scandir(p)]: the last components of the
    paths one level below [p]. *)
Definition child_name (p k : path) : option string :=
  match drop (length p) k with
  | [c] => if bool_decide (take (length p) k = p) then Some c else None
  | _ => None
  end.

Definition children (s : fs) (p : path) : gset string :=
  list_to_set (omap (child_name p) (map fst (map_to_list s))).

(** [os.walk] recurses once per directory level; the filesystem is finite,
    so one more step than the longest path bounds the recursion. *)
Definition walk_fuel (s : fs) : nat :=
  S (max_list (map (λ kv, length kv.1) (map_to_list s))).

End Fs.

(* ================================================================== *)
(** ** The script [Run.py] *)
(* ================================================================== *)

Module Replicator.
Import PyStr Fs.

Section Script.

(** The order in which the operating system lists the entries of a
    directory ([os.scandir] promises none). *)
Variable scandir_order : path → gset string → list string.

Context `{Disk}.

(** [for root, dirs, files in os.walk(top): body] with [topdown=True]:
    [top] is listed when it is reached, its entries are split into
    directories and the rest, the body runs, then each listed
    subdirectory is walked in turn.  A [top] that cannot be listed
    (absent, not a directory, or a directory that cannot be read) yields
    nothing: [os.scandir] raises and [os.walk], with no [onerror],
    ignores the error. *)
Fixpoint os_walk_for (body : path → list string → list string → fs → res)
    (fuel : nat) (top : path) (s : fs) : res :=
  match fuel with
  | O => Ok s
  | S fuel' =>
      if listable s top then
        let names := scandir_order top (children s top) in
        let dirs := filter (λ n, isdir s (top ++ [n]) = true) names in
        let nondirs := filter (λ n, isdir s (top ++ [n]) = false) names in
        bind (body top dirs nondirs s)
          (fold_res (λ d, os_walk_for body fuel' (top ++ [d])) dirs)
      else Ok s
  end.

Variables (source_dir target_dir : path).

(** [os.path.relpath(root, SOURCE_DIR)] for a [root] below [SOURCE_DIR];
    the top itself gives ["."], and [os.path.join(TARGET_DIR, ".")] names
    [TARGET_DIR]: both are the empty relative path here. *)
Definition relpath (p start : path) : path := drop (length start) p.

(** Lines 12-25: the body of the walk loop for copy index [i]. *)
Definition loop_body (i : nat) (root : path) (dirs files : list string)
    (s : fs) : res :=
  let rel_path := relpath root source_dir in
  let dest_path := target_dir ++ rel_path in
  bind (makedirs dest_path s)
    (fold_res (λ file s,
       let new_filename := new_filename file i in
       let src_file := root ++ [file] in
       let dst_file := dest_path ++ [new_filename] in
       copy src_file dst_file s) files).

(** Lines 8-25, for a copy count [copies]. *)
Definition replicate (copies : nat) (s : fs) : res :=
  let fuel := walk_fuel s in
  bind (makedirs target_dir s)
    (fold_res (λ i, os_walk_for (loop_body i) fuel source_dir) (seq 0 copies)).

(** *** The same run as a list of library calls

    Since the run writes below [target_dir] only, every listing of the
    source tree sees the initial filesystem [s0]; the calls the run makes
    can then be listed in advance. *)
Inductive op :=
  | OMakedirs (p : path)
  | OCopy (src dst : path).

Definition step (o : op) : fs → res :=
  match o with
  | OMakedirs p => makedirs p
  | OCopy src dst => copy src dst
  end.

Definition exec (l : list op) : fs → res := fold_res step l.

Definition body_ops (i : nat) (root : path) (files : list string) : list op :=
  let dest_path := target_dir ++ relpath root source_dir in
  OMakedirs dest_path ::
  map (λ file, OCopy (root ++ [file]) (dest_path ++ [new_filename file i])) files.

Fixpoint walk_ops (s0 : fs) (i : nat) (fuel : nat) (top : path) : list op :=
  match fuel with
  | O => []
  | S fuel' =>
      if listable s0 top then
        let names := scandir_order top (children s0 top) in
        let dirs := filter (λ n, isdir s0 (top ++ [n]) = true) names in
        let nondirs := filter (λ n, isdir s0 (top ++ [n]) = false) names in
        body_ops i top nondirs ++
        flat_map (λ d, walk_ops s0 i fuel' (top ++ [d])) dirs
      else []
  end.

Definition replicate_ops (copies : nat) (s0 : fs) : list op :=
  OMakedirs target_dir ::
  flat_map (λ i, walk_ops s0 i (walk_fuel s0) source_dir) (seq 0 copies).

End Script.

(** The constants of the script (lines 4-6). *)
Definition SOURCE_DIR : path :=
  ["C:"; "Users"; "PZWind-AkashM"; "Desktop"; "BigData"; "DATA"]%string.
Definition TARGET_DIR : path :=
  ["C:"; "Users"; "PZWind-AkashM"; "Desktop"; "BigData"; "DATA_100GB"]%string.
Definition COPIES : nat := 20.

Definition main `{Disk} (scandir_order : path → gset string → list string) (s : fs) : res :=
  replicate scandir_order SOURCE_DIR TARGET_DIR COPIES s.

(** One possible listing order, used in the concrete runs below. *)
Definition sorted_order (p : path) (X : gset string) : list string := elements X.

End Replicator.

(* ================================================================== *)
(** ** Properties of filesystems and runs *)
(* ================================================================== *)

Module RunDefs.
Import PyStr Fs Replicator.

(** The filesystem a statement leaves, whether it completes or raises. *)
Definition res_state (r : res) : fs :=
  match r with Ok s => s | Err _ s => s end.

(** The changes [os.makedirs(p)] may make: new directories at prefixes
    of [p] that did not exist. *)
Definition mk_frame (p : path) (s s' : fs) : Prop :=
  ∀ k, s' !! k = s !! k ∨
       (k `prefix_of` p ∧ s !! k = None ∧ s' !! k = Some (Dir true true)).

(** Where [shutil.copy(src, dst)] writes. *)
Definition copy_target (s : fs) (src dst : path) : path :=
  if isdir s dst then dst ++ [basename src] else dst.

Definition is_file (s : fs) (p : path) : Prop :=
  ∃ r w o data, s !! p = Some (File r w o data).

(** A filesystem as an operating system keeps it: the root is not an
    entry, and the parent of every entry is a directory. *)
Definition wf (s : fs) : Prop :=
  ∀ k n, s !! k = Some n → k ≠ [] ∧ ∃ r w, stat s (parent k) = Some (Dir r w).

(** Entry names hold no separator. *)
Definition names_ok (s : fs) : Prop :=
  ∀ k n, s !! k = Some n → sep_free (basename k).

(** Neither root lies inside the other. *)
Definition incomparable (p q : path) : Prop :=
  ¬ p `prefix_of` q ∧ ¬ q `prefix_of` p.

(** [os.scandir] lists every entry of a directory once. *)
Definition listing_ok (order : path → gset string → list string) : Prop :=
  ∀ p X, order p X ≡ₚ elements X.

(** Every directory of the source tree can be listed. *)
Definition listable_tree (s0 : fs) (source_dir : path) : Prop :=
  ∀ D r w, s0 !! (source_dir ++ D) = Some (Dir r w) → r = true.

(** The path Run.py writes the copy [i] of [source_dir/D/f] to. *)
Definition gen_path (target_dir D : path) (f : string) (i : nat) : path :=
  target_dir ++ D ++ [new_filename f i].

(** The generated paths of a run with [copies] passes over [s0]. *)
Definition generated (s0 : fs) (source_dir target_dir : path) (copies : nat)
    (k : path) : Prop :=
  ∃ D f i, (i < copies)%nat ∧ is_file s0 (source_dir ++ D ++ [f]) ∧
    k = gen_path target_dir D f i.

(** The path [shutil.copy] writes to when a generated path is a
    directory. *)
Definition into_generated (s0 : fs) (source_dir target_dir : path)
    (copies : nat) (k : path) : Prop :=
  ∃ D f i, (i < copies)%nat ∧ is_file s0 (source_dir ++ D ++ [f]) ∧
    k = gen_path target_dir D f i ++ [f].

(** The directories Run.py asks [os.makedirs] for, and their prefixes. *)
Definition mirrored_dir (s0 : fs) (source_dir target_dir : path) (copies : nat)
    (k : path) : Prop :=
  k `prefix_of` target_dir ∨
  ((0 < copies)%nat ∧
   ∃ D, isdir s0 (source_dir ++ D) = true ∧ k `prefix_of` target_dir ++ D).

(** No generated path names a directory, already in the target tree or
    mirrored from the source tree. *)
Definition no_collision (s0 : fs) (source_dir target_dir : path)
    (copies : nat) : Prop :=
  ∀ D f i, (i < copies)%nat → is_file s0 (source_dir ++ D ++ [f]) →
    isdir s0 (target_dir ++ D ++ [new_filename f i]) = false ∧
    isdir s0 (source_dir ++ D ++ [new_filename f i]) = false.

(** The calls of a run, as [replicate_ops] lists them. *)
Definition op_ok (s0 : fs) (source_dir target_dir : path) (copies : nat)
    (o : op) : Prop :=
  match o with
  | OMakedirs p =>
      p = target_dir ∨
      ((0 < copies)%nat ∧
       ∃ D, isdir s0 (source_dir ++ D) = true ∧ p = target_dir ++ D)
  | OCopy a b =>
      ∃ D f i, (i < copies)%nat ∧ is_file s0 (source_dir ++ D ++ [f]) ∧
        a = source_dir ++ D ++ [f] ∧ b = gen_path target_dir D f i
  end.

Definition op_under (target_dir : path) (o : op) : Prop :=
  match o with
  | OMakedirs p => target_dir `prefix_of` p
  | OCopy _ b => target_dir `prefix_of` b
  end.

(** [t] holds what [s0] holds below [source_dir]. *)
Definition agree_src (source_dir : path) (s0 t : fs) : Prop :=
  ∀ k, source_dir `prefix_of` k → t !! k = s0 !! k.

(** Regular files below [p], and their number. *)
Definition is_file_node (n : node) : bool :=
  match n with File _ _ _ _ => true | Dir _ _ => false end.

Definition file_keys (s : fs) (p : path) : list path :=
  map fst (filter (λ kv : path * node,
                     bool_decide (p `prefix_of` kv.1 ∧ kv.1 ≠ p) &&
                     is_file_node kv.2 = true)
             (map_to_list s)).

Definition count_files (s : fs) (p : path) : nat := length (file_keys s p).

(** Every directory of [t] is one of [s0] or one Run.py asks for. *)
Definition dirs_from (s0 : fs) (source_dir target_dir : path) (copies : nat)
    (t : fs) : Prop :=
  ∀ k, isdir t k = true →
    isdir s0 k = true ∨ mirrored_dir s0 source_dir target_dir copies k.

(** The changes from [s0] to [t] a run may make: new directories it asks
    for, and writes at generated paths or into directories found there. *)
Definition changes_ok (s0 : fs) (source_dir target_dir : path) (copies : nat)
    (t : fs) : Prop :=
  ∀ k, t !! k = s0 !! k ∨
    (s0 !! k = None ∧ t !! k = Some (Dir true true) ∧
     mirrored_dir s0 source_dir target_dir copies k) ∨
    generated s0 source_dir target_dir copies k ∨
    into_generated s0 source_dir target_dir copies k.

Definition run_inv (s0 : fs) (source_dir target_dir : path) (copies : nat)
    (t : fs) : Prop :=
  agree_src source_dir s0 t ∧ dirs_from s0 source_dir target_dir copies t ∧
  changes_ok s0 source_dir target_dir copies t.

(** The entry [shutil.copy] leaves for a source file it copies: the same
    bytes and permission bits, owned by the user running the script. *)
Definition copied (n : node) : node :=
  match n with
  | File r w _ data => File r w true data
  | Dir r w => Dir r w
  end.

(** The generated path of the file [k] of the source tree, for pass [i]. *)
Definition gen_of (source_dir target_dir : path) (k : path) (i : nat) : path :=
  target_dir ++ drop (length source_dir) (removelast k) ++
  [new_filename (basename k) i].

(** *** Checks of the properties above on a given filesystem *)

Definition wfb (s : fs) : bool :=
  forallb (λ kv : path * node, bool_decide (kv.1 ≠ []) && isdir s (parent kv.1))
    (map_to_list s).

Definition names_okb (s : fs) : bool :=
  forallb (λ kv : path * node,
             bool_decide (("\"%char ∉ chars (basename kv.1)) ∧
                          ("/"%char ∉ chars (basename kv.1))))
    (map_to_list s).

Definition no_collisionb (s0 : fs) (source_dir target_dir : path) (copies : nat) : bool :=
  forallb (λ k, forallb (λ i, negb (isdir s0 (gen_of source_dir target_dir k i)) &&
                              negb (isdir s0 (gen_of source_dir source_dir k i)))
                  (seq 0 copies))
    (file_keys s0 source_dir).

Definition listable_treeb (s0 : fs) (source_dir : path) : bool :=
  forallb (λ kv : path * node,
             negb (bool_decide (source_dir `prefix_of` kv.1)) ||
             match kv.2 with Dir r _ => r | File _ _ _ _ => true end)
    (map_to_list s0).

Definition empty_belowb (s : fs) (p : path) : bool :=
  forallb (λ kv : path * node, negb (bool_decide (p `prefix_of` kv.1 ∧ kv.1 ≠ p)))
    (map_to_list s).

End RunDefs.

(* ================================================================== *)
(** ** Small filesystems for concrete runs *)
(* ================================================================== *)

Module Examples.
Import Fs.

(** A disk with room to spare for the runs below. *)
#[export] Instance example_disk : Disk := {| capacity := 1000 |}.

(** Another listing order: [os.scandir] in reverse name order. *)
Definition rev_order (p : path) (X : gset string) : list string := reverse (elements X).

(** A source tree with a file and a subdirectory. *)
Definition sample_fs : fs := list_to_map [
  (["S"], Dir true true);
  (["S"; "a.txt"], File true true true [Byte.x01]);
  (["S"; "d"], Dir true true);
  (["S"; "d"; "README"], File true true true [Byte.x02])]%string.

(** A source directory whose name is a generated name of a file next
    to it: [b_copy0.txt] gives [b_copy0_copy1.txt] in pass 1. *)
Definition collision_fs : fs := list_to_map [
  (["S"], Dir true true);
  (["S"; "b_copy0.txt"], File true true true [Byte.x01]);
  (["S"; "b_copy0_copy1.txt"], Dir true true);
  (["S"; "b_copy0_copy1.txt"; "b.txt"], File true true true [Byte.x02])]%string.

(** A target tree holding a directory of its own. *)
Definition prior_dir_fs : fs := list_to_map [
  (["S"], Dir true true);
  (["S"; "a.txt"], File true true true [Byte.x01]);
  (["T"], Dir true true);
  (["T"; "old"], Dir true true)]%string.

(** A target tree where a generated path is a directory holding a file
    named like the source file. *)
Definition into_dir_fs : fs := list_to_map [
  (["S"], Dir true true);
  (["S"; "a.txt"], File true true true [Byte.x01]);
  (["T"], Dir true true);
  (["T"; "a_copy0.txt"], Dir true true);
  (["T"; "a_copy0.txt"; "a.txt"], File true true true [Byte.x02])]%string.

(** Two source subdirectories, the second holding an unreadable file. *)
Definition unreadable_fs : fs := list_to_map [
  (["S"], Dir true true);
  (["S"; "a"], Dir true true);
  (["S"; "a"; "x.txt"], File true true true [Byte.x01]);
  (["S"; "b"], Dir true true);
  (["S"; "b"; "y.txt"], File false true true [Byte.x02])]%string.

(** A source tree with a read-only file. *)
Definition readonly_fs : fs := list_to_map [
  (["S"], Dir true true);
  (["S"; "a.txt"], File true false true [Byte.x01]);
  (["S"; "b.txt"], File true true true [Byte.x02])]%string.

(** A source tree with a subdirectory that cannot be listed. *)
Definition unlistable_fs : fs := list_to_map [
  (["S"], Dir true true);
  (["S"; "a.txt"], File true true true [Byte.x01]);
  (["S"; "d"], Dir false true);
  (["S"; "d"; "b.txt"], File true true true [Byte.x02])]%string.

(** A disk with room for three bytes. *)
Definition small_disk : Disk := {| capacity := 3 |}.

End Examples.

(* ================================================================== *)
(** ** Facts about [splitext] and [new_filename] *)
(* ================================================================== *)

Module PyStrFacts.
Import PyStr.

Lemma chars_app (s1 s2 : string) : chars (s1 +:+ s2) = chars s1 ++ chars s2.
Proof. unfold chars. induction s1; simpl; f_equal; auto. Qed.

Lemma chars_inj (s1 s2 : string) : chars s1 = chars s2 → s1 = s2.
Proof.
  intros H. rewrite <- (string_of_list_ascii_of_string s1),
    <- (string_of_list_ascii_of_string s2). unfold chars in H. by rewrite H.
Qed.

Lemma chars_of_list (l : list ascii) : chars (string_of_list_ascii l) = l.
Proof. apply list_ascii_of_string_of_list_ascii. Qed.

Lemma rfind_go_spec (l : list ascii) c i acc :
  ((c ∉ l) ∧ rfind_go l c i acc = acc) ∨
  (∃ d : nat, rfind_go l c i acc = i + Z.of_nat d ∧ l !! d = Some c ∧
     ∀ j, (d < j)%nat → l !! j ≠ Some c).
Proof.
  revert i acc. induction l as [|a l IH]; intros i acc; simpl.
  - left. split; [apply not_elem_of_nil|done].
  - destruct (IH (i + 1) (if ascii_dec a c then i else acc))
      as [[Hn Hr]|[d [Hr [Hd Hj]]]].
    + rewrite Hr. destruct (ascii_dec a c) as [->|Hne].
      * right. exists 0%nat. split; [lia|]. split; [done|].
        intros [|j] Hlt; [lia|]. simpl. intros Hl.
        apply Hn. by eapply list_elem_of_lookup_2.
      * left. split; [|done]. rewrite elem_of_cons. intros [->|?]; auto.
    + right. exists (S d). split; [rewrite Hr; lia|]. split; [done|].
      intros [|j] ?; [lia|]. simpl. apply Hj. lia.
Qed.

Lemma rfind_spec (l : list ascii) c :
  ((c ∉ l) ∧ rfind l c = -1) ∨
  (∃ d : nat, rfind l c = Z.of_nat d ∧ l !! d = Some c ∧
     ∀ j, (d < j)%nat → l !! j ≠ Some c).
Proof. unfold rfind. destruct (rfind_go_spec l c 0 (-1)) as [H|[d H]]; eauto. Qed.

Lemma rfind_absent (l : list ascii) c : c ∉ l → rfind l c = -1.
Proof.
  intros Hn. destruct (rfind_spec l c) as [[_ H]|[d [_ [Hd _]]]]; [done|].
  exfalso. apply Hn. by eapply list_elem_of_lookup_2.
Qed.

Lemma rfind_ge (l : list ascii) c : -1 ≤ rfind l c.
Proof. destruct (rfind_spec l c) as [[_ ->]|[d [-> _]]]; lia. Qed.

Lemma skip_leading_false (l : list ascii) e fi n :
  skip_leading l e fi n = false → ∀ j, (fi ≤ j < fi + n)%nat → l !! j = Some e.
Proof.
  revert fi. induction n as [|n IH]; intros fi H j Hj; simpl in H; [lia|].
  case_decide; [|done].
  destruct (decide (j = fi)) as [->|]; [done|]. apply (IH (S fi)); [done|lia].
Qed.

(** The shape of [splitext]'s result on a name without separators:
    [name ++ ext] is the name, and either [ext] is empty and every dot of
    the name belongs to its run of leading dots, or [ext] is a dot followed
    by dot-free characters. *)
Lemma splitext_spec (p : string) :
  sep_free p →
  let '(a, e) := splitext p in
  chars p = chars a ++ chars e ∧
  ((chars e = [] ∧ ∃ n r, chars p = replicate n "."%char ++ r ∧ ("."%char ∉ r)) ∨
   (∃ e', chars e = "."%char :: e' ∧ ("."%char ∉ e'))).
Proof.
  intros [Hs1 Hs2]. unfold splitext, genericpath_splitext.
  rewrite (rfind_absent _ _ Hs1), (rfind_absent _ _ Hs2). rewrite Z.max_id.
  destruct (rfind_spec (chars p) "."%char) as [[Hn ->]|[d [-> [Hd Hj]]]].
  - simpl. split; [by rewrite app_nil_r|]. left. split; [done|].
    exists 0%nat, (chars p). done.
  - assert ((-1 <? Z.of_nat d) = true) as -> by (apply Z.ltb_lt; lia).
    replace (Z.to_nat (-1 + 1)) with 0%nat by lia.
    rewrite Nat2Z.id, Nat.sub_0_r.
    destruct (skip_leading _ _ _ _) eqn:Hsk.
    + rewrite !chars_of_list. split; [by rewrite firstn_skipn|].
      right. exists (drop (S d) (chars p)).
      split; [by apply drop_S|].
      intros Hin. apply list_elem_of_lookup_1 in Hin as [j Hjl].
      rewrite lookup_drop in Hjl. apply (Hj (S d + j)%nat); [lia|done].
    + simpl. split; [by rewrite app_nil_r|]. left. split; [done|].
      pose proof (skip_leading_false _ _ _ _ Hsk) as Hall.
      exists (S d), (drop (S d) (chars p)). split.
      * rewrite <- (firstn_skipn (S d) (chars p)) at 1. f_equal.
        symmetry. apply replicate_as_elem_of. split.
        { rewrite length_take. apply lookup_lt_Some in Hd. lia. }
        intros y Hy. apply list_elem_of_lookup_1 in Hy as [j Hjy].
        rewrite lookup_take_Some in Hjy. destruct Hjy as [Hjy Hlt].
        destruct (decide (j = d)) as [->|]; [congruence|].
        rewrite Hall in Hjy by lia. congruence.
      * intros Hin. apply list_elem_of_lookup_1 in Hin as [j Hjl].
        rewrite lookup_drop in Hjl. apply (Hj (S d + j)%nat); [lia|done].
Qed.

Lemma pretty_N_char_digit x : is_digit (pretty_N_char x).
Proof.
  unfold is_digit, pretty_N_char.
  repeat case_match; apply list_elem_of_In; simpl; tauto.
Qed.

Lemma pretty_N_go_digits x s :
  ∃ t, chars (pretty_N_go x s) = t ++ chars s ∧ Forall is_digit t.
Proof.
  revert s. induction (N.lt_wf_0 x) as [x _ IH]; intros s.
  destruct (decide (0 < x)%N) as [Hx|Hx].
  - rewrite pretty_N_go_step by done.
    destruct (IH (x `div` 10)%N ltac:(apply N.div_lt; lia)
      (String (pretty_N_char (x `mod` 10)) s)) as [t [Ht Hd]].
    exists (t ++ [pretty_N_char (x `mod` 10)]). rewrite Ht. split.
    + by rewrite <- app_assoc.
    + apply Forall_app. split; [done|]. constructor; [apply pretty_N_char_digit|done].
  - assert (x = 0)%N as -> by lia. rewrite pretty_N_go_0. exists []. done.
Qed.

(** The decimal representation [f"{i}"] is a non-empty string of digits. *)
Lemma pretty_digits (i : nat) :
  chars (pretty i) ≠ [] ∧ Forall is_digit (chars (pretty i)).
Proof.
  unfold pretty, pretty_nat, pretty, pretty_N.
  case_decide as Hx.
  - simpl. split; [done|]. constructor; [|done]. apply list_elem_of_In; simpl; tauto.
  - rewrite pretty_N_go_step by lia.
    destruct (pretty_N_go_digits (N.of_nat i `div` 10)
      (String (pretty_N_char (N.of_nat i `mod` 10)) EmptyString)) as [t [Ht Hd]].
    rewrite Ht. simpl. split.
    + intros Hn. apply (f_equal length) in Hn. rewrite length_app in Hn. simpl in Hn. lia.
    + apply Forall_app. split; [done|]. constructor; [apply pretty_N_char_digit|done].
Qed.

Lemma underscore_not_digit : ¬ is_digit "_"%char.
Proof. unfold is_digit. rewrite list_elem_of_In. simpl. intuition discriminate. Qed.

Lemma last_dot_unique (u1 v1 u2 v2 : list ascii) :
  u1 ++ "."%char :: v1 = u2 ++ "."%char :: v2 →
  ("."%char ∉ v1) → ("."%char ∉ v2) → u1 = u2 ∧ v1 = v2.
Proof.
  intros H Hv1 Hv2. apply app_eq_app in H as [k [[-> Hk]|[-> Hk]]].
  - destruct k as [|c k]; simpl in Hk.
    + inversion Hk. by rewrite app_nil_r.
    + inversion Hk; subst. exfalso. apply Hv2. set_solver.
  - destruct k as [|c k]; simpl in Hk.
    + inversion Hk. by rewrite app_nil_r.
    + inversion Hk; subst. exfalso. apply Hv1. set_solver.
Qed.

Lemma copy_tag_chars : chars "_copy" = ["_";"c";"o";"p";"y"]%char.
Proof. reflexivity. Qed.

Lemma copy_digits_shift (k d1 d2 : list ascii) :
  Forall is_digit d2 →
  chars "_copy" ++ d2 = k ++ chars "_copy" ++ d1 → k = [].
Proof.
  intros Hd Hk. destruct k as [|c k]; [done|]. exfalso.
  apply (f_equal (λ l, l !! length (c :: k))) in Hk.
  rewrite (lookup_app_r (c :: k)) in Hk by lia. rewrite Nat.sub_diag in Hk.
  rewrite copy_tag_chars in Hk. simpl in Hk.
  destruct (length k) as [|[|[|[|n]]]]; simpl in Hk; try discriminate.
  apply underscore_not_digit. eapply Forall_lookup_1; eauto.
Qed.

Lemma copy_digits_inj (a1 a2 d1 d2 : list ascii) :
  Forall is_digit d1 → Forall is_digit d2 →
  a1 ++ chars "_copy" ++ d1 = a2 ++ chars "_copy" ++ d2 → a1 = a2 ∧ d1 = d2.
Proof.
  intros Hd1 Hd2 H. apply app_eq_app in H as [k [[-> Hk]|[-> Hk]]].
  - pose proof (copy_digits_shift _ _ _ Hd2 Hk) as ->. simpl in Hk.
    inversion Hk. by rewrite app_nil_r.
  - pose proof (copy_digits_shift _ _ _ Hd1 Hk) as ->. simpl in Hk.
    inversion Hk. by rewrite app_nil_r.
Qed.

(** A name whose dots all lead it cannot be re-split after a suffix with a
    non-dot character was inserted before a later dot. *)
Lemma leading_dots_no_split (n : nat) (r a2 d1 d2 e2 : list ascii) :
  ("."%char ∉ r) → Forall is_digit d1 →
  (replicate n "."%char ++ r) ++ chars "_copy" ++ d1 =
    a2 ++ chars "_copy" ++ d2 ++ "."%char :: e2 → False.
Proof.
  intros Hr Hd1 H.
  assert (Hdig : "."%char ∉ d1).
  { intros Hin. rewrite Forall_forall in Hd1. specialize (Hd1 _ Hin).
    revert Hd1. unfold is_digit. rewrite list_elem_of_In. simpl.
    intuition discriminate. }
  assert (Hw : ∀ j, ((replicate n "."%char ++ r) ++ chars "_copy" ++ d1) !! j
                      = Some "."%char → (j < n)%nat).
  { intros j Hj. rewrite <- app_assoc in Hj.
    destruct (decide (j < n)%nat); [done|]. exfalso.
    rewrite lookup_app_r in Hj by (rewrite length_replicate; lia).
    apply list_elem_of_lookup_2 in Hj.
    rewrite !elem_of_app, copy_tag_chars in Hj.
    destruct Hj as [?|[Hc|?]]; [done| |done].
    rewrite list_elem_of_In in Hc. simpl in Hc. intuition discriminate. }
  assert (Hdot : (a2 ++ chars "_copy" ++ d2 ++ "."%char :: e2)
                   !! (length a2 + 5 + length d2)%nat = Some "."%char).
  { rewrite lookup_app_r by lia. rewrite copy_tag_chars.
    replace (length a2 + 5 + length d2 - length a2)%nat
      with (5 + length d2)%nat by lia. simpl.
    rewrite lookup_app_r by lia. by rewrite Nat.sub_diag. }
  rewrite <- H in Hdot. apply Hw in Hdot.
  assert (Hund : (a2 ++ chars "_copy" ++ d2 ++ "."%char :: e2)
                   !! length a2 = Some "_"%char).
  { rewrite lookup_app_r by lia. by rewrite Nat.sub_diag. }
  rewrite <- H, <- app_assoc, lookup_app_l in Hund
    by (rewrite length_replicate; lia).
  rewrite lookup_replicate_2 in Hund by lia. discriminate.
Qed.

Lemma new_filename_chars (f : string) (i : nat) :
  chars (new_filename f i) =
  chars (splitext f).1 ++ chars "_copy" ++ chars (pretty i) ++ chars (splitext f).2.
Proof.
  unfold new_filename. destruct (splitext f) as [a e]. simpl.
  by rewrite !chars_app.
Qed.

(** Two (name, copy index) pairs never produce the same new file name. *)
Lemma new_filename_inj (f1 f2 : string) (i1 i2 : nat) :
  sep_free f1 → sep_free f2 →
  new_filename f1 i1 = new_filename f2 i2 → f1 = f2 ∧ i1 = i2.
Proof.
  intros Hs1 Hs2 H. apply (f_equal chars) in H. rewrite !new_filename_chars in H.
  pose proof (splitext_spec f1 Hs1) as Sp1. pose proof (splitext_spec f2 Hs2) as Sp2.
  destruct (splitext f1) as [a1 e1], (splitext f2) as [a2 e2]. simpl in H.
  destruct Sp1 as [Hf1 Hc1], Sp2 as [Hf2 Hc2].
  destruct (pretty_digits i1) as [_ Hd1], (pretty_digits i2) as [_ Hd2].
  assert (Hfin : chars a1 = chars a2 → chars (pretty i1) = chars (pretty i2) →
                 chars e1 = chars e2 → f1 = f2 ∧ i1 = i2).
  { intros Ha Hp He. split.
    - apply chars_inj. by rewrite Hf1, Hf2, Ha, He.
    - apply (inj pretty). by apply chars_inj. }
  destruct Hc1 as [[He1 [n1 [r1 [Hr1 Hn1]]]]|[e1' [He1 Hn1]]],
           Hc2 as [[He2 [n2 [r2 [Hr2 Hn2]]]]|[e2' [He2 Hn2]]].
  - rewrite He1, He2, !app_nil_r in H.
    destruct (copy_digits_inj _ _ _ _ Hd1 Hd2 H). apply Hfin; congruence.
  - exfalso. rewrite He1, He2, app_nil_r in H.
    rewrite Hf1, He1, app_nil_r in Hr1. rewrite Hr1 in H.
    exact (leading_dots_no_split n1 r1 _ _ _ _ Hn1 Hd1 H).
  - exfalso. rewrite He1, He2, app_nil_r in H.
    rewrite Hf2, He2, app_nil_r in Hr2. rewrite Hr2 in H. symmetry in H.
    exact (leading_dots_no_split n2 r2 _ _ _ _ Hn2 Hd2 H).
  - rewrite He1, He2 in H.
    assert (H' : (chars a1 ++ chars "_copy" ++ chars (pretty i1)) ++ "."%char :: e1' =
                 (chars a2 ++ chars "_copy" ++ chars (pretty i2)) ++ "."%char :: e2')
      by (rewrite <- !app_assoc; exact H).
    destruct (last_dot_unique _ _ _ _ H' Hn1 Hn2) as [Hu He].
    destruct (copy_digits_inj _ _ _ _ Hd1 Hd2 Hu). apply Hfin; congruence.
Qed.

(** A name without a dot has no extension. *)
Lemma splitext_no_dot (f : string) :
  ("."%char ∉ chars f) → splitext f = (f, EmptyString).
Proof.
  intros Hn. unfold splitext, genericpath_splitext. rewrite (rfind_absent _ _ Hn).
  pose proof (rfind_ge (chars f) "\"%char). pose proof (rfind_ge (chars f) "/"%char).
  destruct (Z.ltb_spec (Z.max (rfind (chars f) "\") (rfind (chars f) "/")) (-1));
    [lia|done].
Qed.

(** A name whose extension is empty splits as itself. *)
Lemma splitext_no_ext (f : string) :
  (splitext f).2 = EmptyString → splitext f = (f, EmptyString).
Proof.
  unfold splitext, genericpath_splitext.
  pose proof (rfind_ge (chars f) "\"%char). pose proof (rfind_ge (chars f) "/"%char).
  destruct (rfind_spec (chars f) "."%char) as [[_ ->]|[d [-> [Hd _]]]].
  - destruct (Z.ltb_spec (Z.max (rfind (chars f) "\") (rfind (chars f) "/")) (-1));
      [lia|done].
  - destruct (_ <? _); [|done]. destruct (skip_leading _ _ _ _); [|done].
    simpl. intros E. exfalso. rewrite Nat2Z.id in E.
    apply (f_equal chars) in E. rewrite chars_of_list, (drop_S _ _ _ Hd) in E.
    discriminate.
Qed.

Lemma string_app_empty (s : string) : (s +:+ EmptyString)%string = s.
Proof. apply chars_inj. rewrite chars_app. apply app_nil_r. Qed.

Lemma skip_leading_true (l : list ascii) e fi n :
  skip_leading l e fi n = true → ∃ j, (fi ≤ j < fi + n)%nat ∧ l !! j ≠ Some e.
Proof.
  revert fi. induction n as [|n IH]; intros fi H; simpl in H; [discriminate|].
  case_decide as Hc.
  - destruct (IH (S fi) H) as [j [Hj Hl]]. exists j. split; [lia|done].
  - exists fi. split; [lia|done].
Qed.

Lemma rfind_last (u v : list ascii) c :
  c ∉ v → rfind (u ++ c :: v) c = Z.of_nat (length u).
Proof.
  intros Hv. destruct (rfind_spec (u ++ c :: v) c) as [[Hn _]|[d [Hr [Hd Hj]]]].
  - exfalso. apply Hn. apply elem_of_app. right. left.
  - rewrite Hr. f_equal. destruct (lt_eq_lt_dec d (length u)) as [[Hlt| ->]|Hgt]; [|done|].
    + exfalso. apply (Hj (length u) Hlt). rewrite lookup_app_r by lia.
      by rewrite Nat.sub_diag.
    + exfalso. rewrite lookup_app_r in Hd by lia.
      destruct (d - length u)%nat as [|m] eqn:Em; [lia|]. simpl in Hd.
      apply Hv. by eapply list_elem_of_lookup_2.
Qed.

(** [splitext] cuts a name at its last dot when some character before
    that dot is not a dot. *)
Lemma splitext_split (p : string) (u v : list ascii) :
  sep_free p → chars p = u ++ "."%char :: v → ("."%char ∉ v) →
  (∃ j, (j < length u)%nat ∧ u !! j ≠ Some "."%char) →
  splitext p = (string_of_list_ascii u, string_of_list_ascii ("."%char :: v)).
Proof.
  intros [Hs1 Hs2] Hp Hv [j [Hj Hu]]. unfold splitext, genericpath_splitext.
  rewrite (rfind_absent _ _ Hs1), (rfind_absent _ _ Hs2), Z.max_id.
  rewrite Hp, (rfind_last u v _ Hv).
  assert ((-1 <? Z.of_nat (length u)) = true) as -> by (apply Z.ltb_lt; lia).
  replace (Z.to_nat (-1 + 1)) with 0%nat by lia.
  rewrite Nat2Z.id, Nat.sub_0_r.
  destruct (skip_leading _ _ _ _) eqn:Hsk.
  - by rewrite take_app_length, drop_app_length.
  - exfalso. pose proof (skip_leading_false _ _ _ _ Hsk j ltac:(lia)) as Hl.
    rewrite lookup_app_l in Hl by lia. contradiction.
Qed.

(** [splitext] leaves a name whole when every character before a dot is a
    dot. *)
Lemma splitext_dots (p : string) :
  sep_free p →
  (∀ j d, chars p !! d = Some "."%char → (j ≤ d)%nat → chars p !! j = Some "."%char) →
  splitext p = (p, EmptyString).
Proof.
  intros [Hs1 Hs2] Hdots. unfold splitext, genericpath_splitext.
  rewrite (rfind_absent _ _ Hs1), (rfind_absent _ _ Hs2), Z.max_id.
  destruct (rfind_spec (chars p) "."%char) as [[_ ->]|[d [-> [Hd _]]]];
    [reflexivity|].
  assert ((-1 <? Z.of_nat d) = true) as -> by (apply Z.ltb_lt; lia).
  replace (Z.to_nat (-1 + 1)) with 0%nat by lia.
  rewrite Nat2Z.id, Nat.sub_0_r.
  destruct (skip_leading _ _ _ _) eqn:Hsk; [|done].
  exfalso. destruct (skip_leading_true _ _ _ _ Hsk) as [j [Hj Hl]].
  apply Hl. apply (Hdots j d Hd). lia.
Qed.

Lemma not_digit_notin (c : ascii) (d : list ascii) :
  Forall is_digit d → ¬ is_digit c → c ∉ d.
Proof. intros Hd Hc Hin. rewrite Forall_forall in Hd. exact (Hc (Hd _ Hin)). Qed.

Lemma dot_not_digit : ¬ is_digit "."%char.
Proof. unfold is_digit. rewrite list_elem_of_In. simpl. intuition discriminate. Qed.

Lemma bslash_not_digit : ¬ is_digit "\"%char.
Proof. unfold is_digit. rewrite list_elem_of_In. simpl. intuition discriminate. Qed.

Lemma slash_not_digit : ¬ is_digit "/"%char.
Proof. unfold is_digit. rewrite list_elem_of_In. simpl. intuition discriminate. Qed.

Lemma leading_dots_lookup (n : nat) (r w : list ascii) j d :
  ("."%char ∉ r) → ("."%char ∉ w) →
  (replicate n "."%char ++ r ++ w) !! d = Some "."%char → (j ≤ d)%nat →
  (replicate n "."%char ++ r ++ w) !! j = Some "."%char.
Proof.
  intros Hr Hw Hd Hj. destruct (decide (d < n)%nat) as [Hlt|Hge].
  - rewrite lookup_app_l by (rewrite length_replicate; lia).
    apply lookup_replicate_2. lia.
  - exfalso. rewrite lookup_app_r in Hd by (rewrite length_replicate; lia).
    apply list_elem_of_lookup_2, elem_of_app in Hd as [?|?]; auto.
Qed.

End PyStrFacts.

(* ================================================================== *)
(** ** Facts about the library calls *)
(* ================================================================== *)

Module FsFacts.
Import PyStr Fs RunDefs.

Section Calls.
Context {DK : Disk}.

Lemma bind_Ok r k s' : bind r k = Ok s' → ∃ s, r = Ok s ∧ k s = Ok s'.
Proof. destruct r; simpl; [eauto|discriminate]. Qed.

Lemma bind_Err r k e s' :
  bind r k = Err e s' → r = Err e s' ∨ ∃ s, r = Ok s ∧ k s = Err e s'.
Proof. destruct r; simpl; [eauto|]. intros H. inversion H. auto. Qed.

Lemma bind_assoc r k1 k2 : bind (bind r k1) k2 = bind r (λ s, bind (k1 s) k2).
Proof. by destruct r. Qed.

Lemma bind_ext r k1 k2 : (∀ s, k1 s = k2 s) → bind r k1 = bind r k2.
Proof. intros H. destruct r; simpl; auto. Qed.

Lemma fold_res_app {A : Type} (f : A → fs → res) l1 l2 s :
  fold_res f (l1 ++ l2) s = bind (fold_res f l1 s) (fold_res f l2).
Proof.
  revert s. induction l1 as [|x l1 IH]; intros s; simpl; [done|].
  rewrite bind_assoc. apply bind_ext. intros t. apply IH.
Qed.

Lemma fold_res_map {A B : Type} (f : B → fs → res) (g : A → B) l s :
  fold_res (λ x, f (g x)) l s = fold_res f (map g l) s.
Proof.
  revert s. induction l as [|x l IH]; intros s; simpl; [done|].
  apply bind_ext. intros t. apply IH.
Qed.

Lemma mk_frame_refl p s : mk_frame p s s.
Proof. intros k. by left. Qed.

Lemma mk_frame_trans p s1 s2 s3 :
  mk_frame p s1 s2 → mk_frame p s2 s3 → mk_frame p s1 s3.
Proof.
  intros H12 H23 k. destruct (H23 k) as [E|[Hp [E1 E2]]].
  - rewrite E. apply H12.
  - destruct (H12 k) as [E'|[_ [E1' E2']]].
    + right. rewrite <- E'. auto.
    + congruence.
Qed.

Lemma mk_frame_mono p q s s' :
  p `prefix_of` q → mk_frame p s s' → mk_frame q s s'.
Proof.
  intros Hpq H k. destruct (H k) as [E|[Hp E]]; [by left|].
  right. split; [by trans p|done].
Qed.

Lemma stat_cons (s : fs) (x : string) (p : path) : stat s (x :: p) = s !! (x :: p).
Proof. done. Qed.

Lemma stat_Some_ne (s : fs) (p : path) n :
  p ≠ [] → stat s p = Some n → s !! p = Some n.
Proof. destruct p; [done|]. auto. Qed.

Lemma mkdir_frame p s : mk_frame p s (res_state (mkdir p s)).
Proof.
  unfold mkdir. destruct (stat s p) as [n|] eqn:Hp; [apply mk_frame_refl|].
  destruct (stat s (parent p)) as [[r w|r w o d]|]; simpl; try apply mk_frame_refl.
  destruct w; simpl; [|apply mk_frame_refl].
  assert (Hs : s !! p = None) by (destruct p; [discriminate|done]).
  intros k. destruct (decide (k = p)) as [->|Hne].
  - right. split; [done|]. split; [done|]. apply lookup_insert_eq.
  - left. by apply lookup_insert_ne.
Qed.

Lemma makedirs_rev_frame rp s : mk_frame (rev rp) s (res_state (makedirs_rev rp s)).
Proof.
  revert s. induction rp as [|x rh IH]; intros s; simpl; [apply mk_frame_refl|].
  assert (Hpre : rev rh `prefix_of` rev rh ++ [x]) by (by exists [x]).
  assert (Hph : ∃ t, (if exists_ s (rev rh) then Ok s
            else match makedirs_rev rh s with
                 | Err FileExistsError s' => Ok s'
                 | r => r
                 end) = Ok t ∧ mk_frame (rev rh ++ [x]) s t ∨
          ∃ e, (if exists_ s (rev rh) then Ok s
            else match makedirs_rev rh s with
                 | Err FileExistsError s' => Ok s'
                 | r => r
                 end) = Err e t ∧ mk_frame (rev rh ++ [x]) s t).
  { destruct (exists_ s (rev rh)).
    - exists s. left. split; [done|apply mk_frame_refl].
    - pose proof (IH s) as Hf. destruct (makedirs_rev rh s) as [t|[] t];
        exists t; simpl in Hf; eauto using mk_frame_mono. }
  destruct Hph as [t [[-> Ht]|[e [-> Ht]]]]; simpl; [|done].
  eapply mk_frame_trans; [exact Ht|].
  pose proof (mkdir_frame (rev rh ++ [x]) t) as Hm.
  destruct (mkdir (rev rh ++ [x]) t) as [t'|e t']; simpl in *; [done|].
  by destruct (isdir t' (rev rh ++ [x])).
Qed.

Lemma makedirs_frame p s : mk_frame p s (res_state (makedirs p s)).
Proof.
  unfold makedirs. rewrite <- (rev_involutive p) at 1. apply makedirs_rev_frame.
Qed.

Lemma stat_insert_ne (s : fs) d q n : q ≠ d → stat (<[d := n]> s) q = stat s q.
Proof. intros Hne. destruct q; [done|]. simpl. by apply lookup_insert_ne. Qed.

Lemma stat_insert_eq (s : fs) d n : d ≠ [] → stat (<[d := n]> s) d = Some n.
Proof. intros Hne. destruct d; [done|]. apply lookup_insert_eq. Qed.

Lemma write_file_Ok d r w o data s s' :
  write_file d r w o data s = Ok s' → s' = <[d := File r w o data]> s.
Proof. unfold write_file. case_decide; simpl; congruence. Qed.

Lemma write_file_Err d r w o data s e s' :
  write_file d r w o data s = Err e s' → ∃ data', s' = <[d := File r w o data']> s.
Proof. unfold write_file. case_decide; simpl; [discriminate|]. intros [= _ <-]. eauto. Qed.

(** [shutil.copy] that completes has written the bytes and permission
    bits of [src] at its target. *)
Lemma copy_Ok src dst s s' :
  copy src dst s = Ok s' →
  ∃ w o data, s !! src = Some (File true w o data) ∧ src ≠ [] ∧
    copy_target s src dst ≠ [] ∧ src ≠ copy_target s src dst ∧
    isdir s (copy_target s src dst) = false ∧
    (is_Some (s !! copy_target s src dst) ∨
     ∃ r, stat s (parent (copy_target s src dst)) = Some (Dir r true)) ∧
    s' = <[copy_target s src dst := File true w true data]> s.
Proof.
  unfold copy. fold (copy_target s src dst). set (d := copy_target s src dst).
  unfold copyfile.
  destruct (bool_decide (src = d) && exists_ s src) eqn:Hsame; [discriminate|].
  destruct (stat s src) as [[r0 w0|r w o data]|] eqn:Hsrc; simpl; try discriminate.
  destruct r; simpl; [|discriminate].
  assert (Hsn : src ≠ []) by (intros ->; discriminate).
  assert (Hne : src ≠ d).
  { intros <-. rewrite bool_decide_eq_true_2 in Hsame by done.
    unfold exists_ in Hsame. rewrite Hsrc in Hsame. discriminate. }
  assert (Hs : s !! src = Some (File true w o data)) by (by apply stat_Some_ne).
  destruct (stat s d) as [[dr0 dw0|dr dw dow dd]|] eqn:Hd; simpl.
  - discriminate.
  - assert (Hdn : d ≠ []) by (intros E; rewrite E in Hd; discriminate).
    destruct dw; simpl; [|discriminate].
    destruct (write_file d dr true dow data s) as [t|e t] eqn:Hw; simpl; [|discriminate].
    apply write_file_Ok in Hw as ->. unfold copymode.
    rewrite stat_insert_ne by done. rewrite Hsrc, stat_insert_eq by done.
    destruct dow; [|discriminate].
    intros [= <-]. exists w, o, data. rewrite insert_insert_eq.
    repeat split; auto; [unfold isdir; by rewrite Hd|].
    left. rewrite (stat_Some_ne s d _ Hdn Hd). eauto.
  - assert (Hdn : d ≠ []) by (intros E; rewrite E in Hd; discriminate).
    destruct (stat s (parent d)) as [[pr pw|pr pw po pd]|] eqn:Hpd; try discriminate.
    destruct pw; [|discriminate]. simpl.
    destruct (write_file d true true true data s) as [t|e t] eqn:Hw; simpl; [|discriminate].
    apply write_file_Ok in Hw as ->. unfold copymode.
    rewrite stat_insert_ne by done. rewrite Hsrc, stat_insert_eq by done.
    intros [= <-]. exists w, o, data. rewrite insert_insert_eq.
    repeat split; eauto. unfold isdir; by rewrite Hd.
Qed.

(** [shutil.copy] that raises has either written nothing, or left at its
    target a file it opened: with part of the bytes when the disk is
    full, or with all of them when [os.chmod] is refused. *)
Lemma copy_Err src dst s e s' :
  copy src dst s = Err e s' →
  s' = s ∨
  (copy_target s src dst ≠ [] ∧ src ≠ copy_target s src dst ∧
   isdir s (copy_target s src dst) = false ∧
   (is_Some (s !! copy_target s src dst) ∨
    ∃ r, stat s (parent (copy_target s src dst)) = Some (Dir r true)) ∧
   ∃ r w o data, s' = <[copy_target s src dst := File r w o data]> s).
Proof.
  unfold copy. fold (copy_target s src dst). set (d := copy_target s src dst).
  unfold copyfile.
  destruct (bool_decide (src = d) && exists_ s src) eqn:Hsame;
    [intros [= _ <-]; by left|].
  destruct (stat s src) as [[r0 w0|r w o data]|] eqn:Hsrc; simpl;
    try (intros [= _ <-]; by left).
  destruct r; simpl; [|intros [= _ <-]; by left].
  assert (Hne : src ≠ d).
  { intros <-. rewrite bool_decide_eq_true_2 in Hsame by done.
    unfold exists_ in Hsame. rewrite Hsrc in Hsame. discriminate. }
  destruct (stat s d) as [[dr0 dw0|dr dw dow dd]|] eqn:Hd; simpl.
  - intros [= _ <-]; by left.
  - assert (Hdn : d ≠ []) by (intros E; rewrite E in Hd; discriminate).
    assert (Hdir : isdir s d = false) by (unfold isdir; by rewrite Hd).
    assert (Hex : is_Some (s !! d)) by (rewrite (stat_Some_ne s d _ Hdn Hd); eauto).
    destruct dw; simpl; [|intros [= _ <-]; by left].
    destruct (write_file d dr true dow data s) as [t|e' t] eqn:Hw; simpl.
    + apply write_file_Ok in Hw as ->. unfold copymode.
      rewrite stat_insert_ne by done. rewrite Hsrc, stat_insert_eq by done.
      destruct dow; [discriminate|]. intros [= _ <-].
      right. split_and!; eauto.
    + apply write_file_Err in Hw as [data' ->]. intros [= _ <-].
      right. split_and!; eauto.
  - assert (Hdn : d ≠ []) by (intros E; rewrite E in Hd; discriminate).
    assert (Hdir : isdir s d = false) by (unfold isdir; by rewrite Hd).
    destruct (stat s (parent d)) as [[pr pw|pr pw po pd]|] eqn:Hpd;
      try (intros [= _ <-]; by left).
    destruct pw; simpl; [|intros [= _ <-]; by left].
    destruct (write_file d true true true data s) as [t|e' t] eqn:Hw; simpl.
    + apply write_file_Ok in Hw as ->. unfold copymode.
      rewrite stat_insert_ne by done. rewrite Hsrc, stat_insert_eq by done.
      discriminate.
    + apply write_file_Err in Hw as [data' ->]. intros [= _ <-].
      right. split_and!; eauto.
Qed.

(** Whatever its outcome, [shutil.copy] changes at most its target,
    where it leaves a file. *)
Lemma copy_state src dst s :
  res_state (copy src dst s) = s ∨
  (copy_target s src dst ≠ [] ∧ src ≠ copy_target s src dst ∧
   isdir s (copy_target s src dst) = false ∧
   (is_Some (s !! copy_target s src dst) ∨
    ∃ r, stat s (parent (copy_target s src dst)) = Some (Dir r true)) ∧
   ∃ r w o data,
     res_state (copy src dst s) = <[copy_target s src dst := File r w o data]> s).
Proof.
  destruct (copy src dst s) as [s'|e s'] eqn:Hc; simpl.
  - apply copy_Ok in Hc as (w & o & data & _ & _ & H1 & H2 & H3 & H4 & ->).
    right. split_and!; eauto.
  - by apply copy_Err in Hc.
Qed.

Lemma exec_cons o l s : Replicator.exec (o :: l) s = bind (Replicator.step o s) (Replicator.exec l).
Proof. done. Qed.

Lemma exec_app l1 l2 s :
  Replicator.exec (l1 ++ l2) s = bind (Replicator.exec l1 s) (Replicator.exec l2).
Proof. apply fold_res_app. Qed.

(** An invariant kept by every call of a successful list of calls holds
    at its end. *)
Lemma exec_Ok_inv (P : fs → Prop) l s s' :
  (∀ o t t', o ∈ l → P t → Replicator.step o t = Ok t' → P t') →
  P s → Replicator.exec l s = Ok s' → P s'.
Proof.
  revert s. induction l as [|o l IH]; intros s Hstep Hs H; simpl in H.
  - injection H as <-. exact Hs.
  - apply bind_Ok in H as [t [Ht Hk]].
    eapply IH; [|eapply Hstep; [left|..]; eauto|exact Hk].
    intros o' t1 t2 Hin. apply Hstep. by right.
Qed.

(** A failing list of calls stops at its first failing call. *)
Lemma exec_Err_split l s e s' :
  Replicator.exec l s = Err e s' →
  ∃ pre o post t, l = pre ++ o :: post ∧ Replicator.exec pre s = Ok t ∧
    Replicator.step o t = Err e s'.
Proof.
  revert s. induction l as [|o l IH]; intros s H; simpl in H; [discriminate|].
  apply bind_Err in H as [H|[t [Ht Hk]]].
  - exists [], o, l, s. auto.
  - destruct (IH t Hk) as (pre & o' & post & t' & -> & Hpre & Ho).
    exists (o :: pre), o', post, t'. split; [done|]. split; [|done].
    rewrite exec_cons, Ht. done.
Qed.

Lemma child_name_app p c : child_name p (p ++ [c]) = Some c.
Proof.
  unfold child_name. rewrite drop_app_length, take_app_length.
  by rewrite bool_decide_eq_true_2.
Qed.

Lemma child_name_Some p k c : child_name p k = Some c → k = p ++ [c].
Proof.
  unfold child_name. destruct (drop (length p) k) as [|c' [|]] eqn:Hd;
    try discriminate.
  case_bool_decide as Ht; [|discriminate]. intros [= ->].
  rewrite <- (firstn_skipn (length p) k), Ht, Hd. done.
Qed.

Lemma elem_of_children (s : fs) p c : c ∈ children s p ↔ is_Some (s !! (p ++ [c])).
Proof.
  unfold children. rewrite elem_of_list_to_set, list_elem_of_omap. split.
  - intros [k [Hk Hc]]. apply child_name_Some in Hc. subst.
    change (map fst (map_to_list s)) with (fst <$> map_to_list s) in Hk.
    apply list_elem_of_fmap in Hk as [[k' v] [Hk' Hkv]].
    rewrite elem_of_map_to_list in Hkv. simpl in Hk'. subst. eauto.
  - intros [v Hv]. exists (p ++ [c]). split; [|apply child_name_app].
    change (map fst (map_to_list s)) with (fst <$> map_to_list s).
    apply list_elem_of_fmap. exists (p ++ [c], v). split; [done|].
    by apply elem_of_map_to_list.
Qed.

End Calls.

End FsFacts.

(* ================================================================== *)
(** ** The run as a list of library calls *)
(* ================================================================== *)

Module RunFacts.
Import PyStr Fs Replicator RunDefs FsFacts.

Section Run.
Context {DK : Disk}.

Lemma bind_ext_Ok r k1 k2 :
  (∀ s, r = Ok s → k1 s = k2 s) → bind r k1 = bind r k2.
Proof. destruct r; simpl; auto. Qed.

Lemma elem_of_flat_map {A B} (f : A → list B) l y :
  y ∈ flat_map f l ↔ ∃ x, x ∈ l ∧ y ∈ f x.
Proof.
  rewrite list_elem_of_In, in_flat_map.
  split; intros [x [H1 H2]]; exists x; rewrite ?list_elem_of_In in *; auto.
Qed.

Lemma copy_target_prefix s a b : b `prefix_of` copy_target s a b.
Proof. unfold copy_target. destruct (isdir s b); [by apply prefix_app_r|done]. Qed.

Lemma loop_body_exec src tgt i root dirs files t :
  loop_body src tgt i root dirs files t = exec (body_ops src tgt i root files) t.
Proof.
  unfold loop_body, body_ops, exec. simpl. apply bind_ext. intros t'.
  by rewrite <- fold_res_map.
Qed.

Lemma body_ops_under src tgt i root files o :
  o ∈ body_ops src tgt i root files → op_under tgt o.
Proof.
  unfold body_ops. rewrite elem_of_cons. intros [->|Ho]; simpl.
  - by apply prefix_app_r.
  - apply list_elem_of_fmap in Ho as [f [-> _]]. simpl.
    rewrite <- app_assoc. by apply prefix_app_r.
Qed.

Lemma walk_ops_under order src tgt s0 i fuel top o :
  o ∈ walk_ops order src tgt s0 i fuel top → op_under tgt o.
Proof.
  revert top. induction fuel as [|fuel IH]; intros top; cbn [walk_ops];
    [set_solver|].
  destruct (listable s0 top); [|set_solver].
  rewrite elem_of_app, elem_of_flat_map. intros [Ho|[d [_ Ho]]].
  - by eapply body_ops_under.
  - by eapply IH.
Qed.

Lemma prefix_removelast (k' k : path) :
  k' `prefix_of` k → k' ≠ k → k' `prefix_of` removelast k.
Proof.
  intros [r ->] Hne. destruct r as [|x r] using rev_ind.
  - by rewrite app_nil_r in Hne.
  - rewrite app_assoc, removelast_last. by apply prefix_app_r.
Qed.

Lemma length_removelast_lt (k : path) : k ≠ [] → (length (removelast k) < length k)%nat.
Proof.
  intros Hk. destruct (exists_last Hk) as (k0 & x & ->).
  rewrite removelast_last, length_app. simpl. lia.
Qed.

Lemma prefix_strict (k' k : path) :
  k' `prefix_of` k → (length k' < length k)%nat → k' ≠ k.
Proof. intros _ Hl ->. lia. Qed.

(** In a well-formed filesystem every proper prefix of an entry is a
    directory. *)
Lemma wf_prefix_isdir s k n k' :
  wf s → s !! k = Some n → k' `prefix_of` k → k' ≠ k → isdir s k' = true.
Proof.
  intros Hwf. remember (length k) as m eqn:Hm. assert (Hle : (length k ≤ m)%nat) by lia.
  clear Hm. revert k n k' Hle. induction m as [|m IH]; intros k n k' Hle Hk Hp Hne.
  - destruct (Hwf _ _ Hk) as [Hkn _]. destruct k; [done|simpl in Hle; lia].
  - destruct (Hwf _ _ Hk) as [Hkn [r [w Hw]]].
    pose proof (prefix_removelast k' k Hp Hne) as Hp'.
    destruct (decide (k' = parent k)) as [->|Hne'].
    + unfold isdir. by rewrite Hw.
    + assert (Hpn : parent k ≠ []).
      { intros E. apply Hne'. unfold parent in *. rewrite E in Hp' |- *.
        by apply prefix_nil_inv. }
      apply (IH (parent k) (Dir r w)); [|by apply stat_Some_ne|done|done].
      pose proof (length_removelast_lt k Hkn). unfold parent. lia.
Qed.

Lemma fuel_bound (s : fs) k n : s !! k = Some n → (length k < walk_fuel s)%nat.
Proof.
  intros Hk. unfold walk_fuel. apply Nat.lt_succ_r, max_list_elem_of_le.
  apply list_elem_of_fmap. exists (k, n). split; [done|].
  by apply elem_of_map_to_list.
Qed.

Lemma parent_ne (k : path) : k ≠ [] → parent k ≠ k.
Proof.
  intros Hk E. pose proof (length_removelast_lt k Hk). unfold parent in E.
  rewrite E in H. lia.
Qed.

Lemma isdir_lookup_eq (t t' : fs) k : t' !! k = t !! k → isdir t' k = isdir t k.
Proof. intros E. destruct k; [done|]. unfold isdir, stat. by rewrite E. Qed.

Lemma isdir_nil (t : fs) : isdir t [] = true.
Proof. done. Qed.

Lemma makedirs_rev_pres (P : fs → Prop) rp s :
  (∀ q t, P t → P (res_state (mkdir q t))) → P s → P (res_state (makedirs_rev rp s)).
Proof.
  intros Hm. revert s. induction rp as [|x rh IH]; intros s Hs; [done|].
  cbn [makedirs_rev].
  assert (Hr : P (res_state (if exists_ s (rev rh) then Ok s
            else match makedirs_rev rh s with
                 | Err FileExistsError s' => Ok s'
                 | r => r
                 end))).
  { destruct (exists_ s (rev rh)); [done|].
    specialize (IH s Hs). destruct (makedirs_rev rh s) as [t|[] t]; done. }
  destruct (if exists_ s (rev rh) then _ else _) as [t|e t]; simpl in *; [|done].
  specialize (Hm (rev rh ++ [x]) t Hr).
  destruct (mkdir (rev rh ++ [x]) t) as [t'|e t']; simpl in *; [done|].
  by destruct (isdir t' _).
Qed.

Lemma mkdir_wf q t : wf t → wf (res_state (mkdir q t)).
Proof.
  intros Hwf. unfold mkdir.
  destruct (stat t q) eqn:Hq; [done|].
  destruct (stat t (parent q)) as [[r w|r w o d]|] eqn:Hp; simpl; try done.
  destruct w; simpl; [|done].
  assert (Hqn : q ≠ []) by (intros ->; discriminate).
  intros k n Hk. destruct (decide (k = q)) as [->|Hne].
  - split; [done|]. exists r, true. rewrite stat_insert_ne; [done|by apply parent_ne].
  - rewrite lookup_insert_ne in Hk by congruence.
    destruct (Hwf k n Hk) as [Hkn [r' [w' Hw']]]. split; [done|].
    destruct (decide (parent k = q)) as [E|E].
    + exists true, true. rewrite E. by apply stat_insert_eq.
    + exists r', w'. by rewrite stat_insert_ne.
Qed.

Lemma makedirs_wf p t : wf t → wf (res_state (makedirs p t)).
Proof. intros Hwf. unfold makedirs. apply makedirs_rev_pres; [apply mkdir_wf|done]. Qed.

Lemma copy_wf a b t t' : wf t → copy a b t = Ok t' → wf t'.
Proof.
  intros Hwf Hc.
  apply copy_Ok in Hc as (w & o & data & _ & _ & Hcn & _ & Hnd & Hpar & ->).
  set (c := copy_target t a b) in *.
  intros k n Hk. destruct (decide (k = c)) as [->|Hne].
  - split; [done|]. rewrite stat_insert_ne by (by apply parent_ne).
    destruct Hpar as [[n' Hn']|[r Hpar]]; [|eauto]. by destruct (Hwf _ _ Hn') as [_ ?].
  - rewrite lookup_insert_ne in Hk by congruence.
    destruct (Hwf k n Hk) as [Hkn [r' [w' Hw']]]. split; [done|].
    destruct (decide (parent k = c)) as [E|E].
    + exfalso. rewrite E in Hw'. unfold isdir in Hnd. by rewrite Hw' in Hnd.
    + exists r', w'. by rewrite stat_insert_ne.
Qed.

Lemma step_wf o t t' : wf t → step o t = Ok t' → wf t'.
Proof.
  destruct o as [p|a b]; simpl; intros Hwf Hst.
  - pose proof (makedirs_wf p t Hwf) as H. by rewrite Hst in H.
  - by eapply copy_wf.
Qed.

Lemma exec_wf l t t' : wf t → exec l t = Ok t' → wf t'.
Proof. apply exec_Ok_inv. intros o t1 t2 _. apply step_wf. Qed.

(** After [os.makedirs(p)] returns, [p] is a directory. *)
Lemma makedirs_isdir p s s' : makedirs p s = Ok s' → isdir s' p = true.
Proof.
  unfold makedirs. rewrite <- (rev_involutive p) at 2.
  destruct (rev p) as [|x rh]; [intros [= <-]; done|].
  cbn [makedirs_rev]. intros H. apply bind_Ok in H as [t [_ Ht]].
  unfold mkdir in Ht. destruct (stat t (rev (x :: rh))) eqn:Hq.
  - destruct (isdir t _) eqn:Hd; [by injection Ht as <-|discriminate].
  - destruct (stat t (parent _)) as [[? []|]|]; simpl in Ht;
      try (destruct (isdir t _) eqn:Hd; [by injection Ht as <-|discriminate]).
    injection Ht as <-. unfold isdir. rewrite stat_insert_eq; [done|].
    intros E. rewrite E in Hq. discriminate.
Qed.

(** A directory stays a directory. *)
Lemma step_isdir o t t' k : step o t = Ok t' → isdir t k = true → isdir t' k = true.
Proof.
  intros Hst Hd. destruct o as [p|a b]; simpl in Hst.
  - pose proof (makedirs_frame p t) as Hf. rewrite Hst in Hf. simpl in Hf.
    destruct (Hf k) as [E|[_ [E _]]].
    + by rewrite (isdir_lookup_eq t t' k E).
    + destruct k; [done|]. unfold isdir, stat in Hd. by rewrite E in Hd.
  - apply copy_Ok in Hst as (w & o & data & _ & _ & _ & _ & Hnd & _ & ->).
    destruct (decide (k = copy_target t a b)) as [->|Hne]; [congruence|].
    rewrite (isdir_lookup_eq t); [done|]. by apply lookup_insert_ne.
Qed.

Lemma exec_isdir l t t' k : exec l t = Ok t' → isdir t k = true → isdir t' k = true.
Proof.
  intros H Hd. apply (exec_Ok_inv (λ u, isdir u k = true) l t t'); [|done|done].
  intros o t1 t2 _ H1 H2. by eapply step_isdir.
Qed.

Lemma isdir_ne_lookup (s : fs) p :
  p ≠ [] → isdir s p = true → ∃ r w, s !! p = Some (Dir r w).
Proof.
  intros Hp. unfold isdir, stat. destruct p; [done|].
  destruct (s !! _) as [[r w|]|]; [eauto|discriminate|discriminate].
Qed.

Lemma listable_isdir (s : fs) p : listable s p = true → isdir s p = true.
Proof. unfold listable, isdir. by destruct (stat s p) as [[]|]. Qed.

Lemma listable_tree_listable s0 src D :
  listable_tree s0 src → isdir s0 (src ++ D) = true → listable s0 (src ++ D) = true.
Proof.
  intros Hl. unfold isdir, listable.
  destruct (src ++ D) as [|x p] eqn:E; [done|]. simpl.
  rewrite <- E. destruct (s0 !! (src ++ D)) as [[r w|]|] eqn:Hk; try done.
  intros _. by apply (Hl D r w).
Qed.


Lemma stat_cons_ne (s : fs) p : p ≠ [] → stat s p = s !! p.
Proof. by destruct p. Qed.

(** [os.makedirs(p, exist_ok=True)] on an existing directory changes
    nothing. *)
Lemma makedirs_exist_ok s p : wf s → isdir s p = true → makedirs p s = Ok s.
Proof.
  intros Hwf Hd. unfold makedirs.
  destruct (rev p) as [|x rh] eqn:E; [done|].
  assert (Hp : p = rev rh ++ [x]) by (rewrite <- (rev_involutive p), E; done).
  assert (Hpn : p ≠ []) by (rewrite Hp; by destruct (rev rh)).
  destruct (isdir_ne_lookup s p Hpn Hd) as [r [w Hw]].
  destruct (Hwf _ _ Hw) as [_ [r' [w' Hw']]].
  unfold parent in Hw'. rewrite Hp, removelast_last in Hw'.
  cbn [makedirs_rev]. unfold exists_. rewrite Hw'. simpl.
  unfold mkdir. rewrite <- Hp. rewrite (stat_cons_ne s p Hpn), Hw, Hd. done.
Qed.


Lemma exec_op_isdir l1 p l2 s s' :
  exec (l1 ++ OMakedirs p :: l2) s = Ok s' → isdir s' p = true.
Proof.
  rewrite exec_app. intros H. apply bind_Ok in H as [t1 [_ H]].
  rewrite exec_cons in H. apply bind_Ok in H as [t2 [H2 H3]].
  apply makedirs_isdir in H2. by eapply exec_isdir.
Qed.

Lemma basename_snoc (l : path) f : basename (l ++ [f]) = f.
Proof. apply last_last. Qed.

Lemma NoDup_list_prod {A B : Type} (l : list A) (l' : list B) :
  NoDup l → NoDup l' → NoDup (list_prod l l').
Proof.
  intros Hl Hl'. induction Hl as [|x l Hx Hl IH]; simpl; [constructor|].
  apply NoDup_app. split; [|split; [|done]].
  - apply NoDup_fmap_2_strong; [|done]. by intros ?? _ _ [= ->].
  - intros [x' y] Hin Hin'. apply list_elem_of_fmap in Hin as [y' [[= -> _] _]].
    apply list_elem_of_In, in_prod_iff in Hin' as [Hin' _].
    apply Hx. by apply list_elem_of_In.
Qed.

Lemma elem_of_list_prod {A B : Type} (l : list A) (l' : list B) x y :
  (x, y) ∈ list_prod l l' ↔ x ∈ l ∧ y ∈ l'.
Proof. rewrite !list_elem_of_In. apply in_prod_iff. Qed.

Lemma elem_of_file_keys (s : fs) p k :
  k ∈ file_keys s p ↔ p `prefix_of` k ∧ k ≠ p ∧ is_file s k.
Proof.
  unfold file_keys. change (map fst ?l) with (fst <$> l).
  rewrite list_elem_of_fmap. split.
  - intros [[k' n] [-> Hin]]. apply list_elem_of_filter in Hin as [Hb Hin].
    apply elem_of_map_to_list in Hin. simpl in *.
    apply andb_true_iff in Hb as [Hb Hn]. apply bool_decide_eq_true in Hb as [Hp Hne].
    split; [done|]. split; [done|].
    destruct n as [|r w o d]; [discriminate|]. by exists r, w, o, d.
  - intros (Hp & Hne & r & w & o & d & Hk). exists (k, File r w o d). split; [done|].
    apply list_elem_of_filter. split.
    + simpl. apply andb_true_iff. split; [|done]. by apply bool_decide_eq_true.
    + by apply elem_of_map_to_list.
Qed.

Lemma NoDup_file_keys (s : fs) p : NoDup (file_keys s p).
Proof.
  unfold file_keys. change (map fst ?l) with (l.*1).
  apply NoDup_fmap_fst.
  - intros k n1 n2 H1 H2. apply list_elem_of_filter in H1 as [_ H1].
    apply list_elem_of_filter in H2 as [_ H2].
    apply elem_of_map_to_list in H1, H2. congruence.
  - apply NoDup_filter, NoDup_map_to_list.
Qed.

Lemma file_key_split (s : fs) p k :
  k ∈ file_keys s p → ∃ D f, k = p ++ D ++ [f] ∧ is_file s k.
Proof.
  rewrite elem_of_file_keys. intros ([r ->] & Hne & Hf).
  destruct r as [|f D _] using rev_ind; [by rewrite app_nil_r in Hne|].
  by exists D, f.
Qed.

Lemma gen_of_spec src tgt D f i : gen_of src tgt (src ++ D ++ [f]) i = gen_path tgt D f i.
Proof.
  unfold gen_of, gen_path.
  replace (src ++ D ++ [f]) with ((src ++ D) ++ [f]) by (by rewrite app_assoc).
  by rewrite removelast_last, basename_snoc, drop_app_length.
Qed.

Lemma in_map_to_list (s : fs) k n : s !! k = Some n → In (k, n) (map_to_list s).
Proof. intros H. apply list_elem_of_In, elem_of_map_to_list, H. Qed.

Lemma lookup_Some_keys (s : fs) k n : s !! k = Some n → In k (map fst (map_to_list s)).
Proof. intros H. apply in_map_iff. exists (k, n). split; [done|]. by apply in_map_to_list. Qed.

Lemma wfb_wf s : wfb s = true → wf s.
Proof.
  unfold wfb. rewrite forallb_forall. intros H k n Hk.
  specialize (H (k, n) (in_map_to_list s k n Hk)). simpl in H.
  apply andb_true_iff in H as [H1 H2]. apply bool_decide_eq_true in H1.
  split; [done|]. unfold isdir in H2.
  destruct (stat s (parent k)) as [[r w|]|]; [eauto|discriminate|discriminate].
Qed.

Lemma listable_treeb_ok s0 src : listable_treeb s0 src = true → listable_tree s0 src.
Proof.
  unfold listable_treeb. rewrite forallb_forall. intros H D r w Hk.
  specialize (H (src ++ D, Dir r w) (in_map_to_list s0 _ _ Hk)). simpl in H.
  rewrite bool_decide_eq_true_2 in H by (by apply prefix_app_r). done.
Qed.

Lemma names_okb_ok s : names_okb s = true → names_ok s.
Proof.
  unfold names_okb. rewrite forallb_forall. intros H k n Hk.
  specialize (H (k, n) (in_map_to_list s k n Hk)). simpl in H.
  by apply bool_decide_eq_true in H.
Qed.

Lemma no_collisionb_ok s0 src tgt copies :
  no_collisionb s0 src tgt copies = true → no_collision s0 src tgt copies.
Proof.
  unfold no_collisionb. rewrite forallb_forall. intros H D f i Hi Hf.
  assert (Hk : src ++ D ++ [f] ∈ file_keys s0 src).
  { apply elem_of_file_keys. split; [by apply prefix_app_r|]. split; [|done].
    intros E. apply (f_equal length) in E. rewrite !length_app in E. simpl in E. lia. }
  apply list_elem_of_In in Hk. specialize (H _ Hk). rewrite forallb_forall in H.
  assert (Hi' : In i (seq 0 copies)) by (apply in_seq; lia).
  specialize (H i Hi'). apply andb_true_iff in H as [H1 H2].
  rewrite !gen_of_spec in H1, H2. apply negb_true_iff in H1, H2. done.
Qed.

Lemma empty_belowb_ok s p :
  empty_belowb s p = true → ∀ k, p `prefix_of` k → k ≠ p → s !! k = None.
Proof.
  unfold empty_belowb. rewrite forallb_forall. intros H k Hp Hne.
  destruct (s !! k) as [n|] eqn:Hk; [|done]. exfalso.
  specialize (H (k, n) (in_map_to_list s k n Hk)). simpl in H.
  apply negb_true_iff, bool_decide_eq_false in H. auto.
Qed.



Section Walk.
Variable order : path → gset string → list string.
Variables (src tgt : path).
Hypothesis Hinc : incomparable src tgt.

Lemma src_ne : src ≠ [].
Proof. intros ->. apply (proj1 Hinc), prefix_nil. Qed.

Lemma tgt_ne : tgt ≠ [].
Proof. intros ->. apply (proj2 Hinc), prefix_nil. Qed.

Lemma under_not_src k p : tgt `prefix_of` p → k `prefix_of` p → ¬ src `prefix_of` k.
Proof.
  intros Ht Hk Hs. destruct (prefix_weak_total src tgt p) as [H|H];
    [by trans k|done|exact (proj1 Hinc H)|exact (proj2 Hinc H)].
Qed.

Lemma step_agree s0 o t t' :
  op_under tgt o → agree_src src s0 t → step o t = Ok t' → agree_src src s0 t'.
Proof.
  intros Hu Hag Hst k Hk. destruct o as [p|a b]; simpl in *.
  - pose proof (makedirs_frame p t) as Hf. rewrite Hst in Hf. simpl in Hf.
    destruct (Hf k) as [->|[Hkp _]]; [by apply Hag|].
    exfalso. by apply (under_not_src k p).
  - apply copy_Ok in Hst as (w & o & data & _ & _ & _ & _ & _ & _ & ->).
    destruct (decide (k = copy_target t a b)) as [->|Hne].
    + exfalso. apply (under_not_src (copy_target t a b) (copy_target t a b));
        [trans b; [done|apply copy_target_prefix]|done|exact Hk].
    + rewrite lookup_insert_ne by congruence. by apply Hag.
Qed.

Lemma exec_agree s0 l t t' :
  (∀ o, o ∈ l → op_under tgt o) →
  agree_src src s0 t → exec l t = Ok t' → agree_src src s0 t'.
Proof.
  intros Hl. apply exec_Ok_inv. intros o t1 t2 Ho. apply step_agree. by apply Hl.
Qed.

Lemma agree_isdir s0 t p :
  agree_src src s0 t → src `prefix_of` p → isdir t p = isdir s0 p.
Proof.
  intros Hag Hp. destruct p as [|x p].
  - exfalso. apply src_ne. by apply prefix_nil_inv.
  - unfold isdir, stat. by rewrite Hag.
Qed.

Lemma agree_listable s0 t p :
  agree_src src s0 t → src `prefix_of` p → listable t p = listable s0 p.
Proof.
  intros Hag Hp. destruct p as [|x p].
  - exfalso. apply src_ne. by apply prefix_nil_inv.
  - unfold listable, stat. by rewrite Hag.
Qed.

Lemma agree_children s0 t p :
  agree_src src s0 t → src `prefix_of` p → children t p = children s0 p.
Proof.
  intros Hag Hp. apply set_eq. intros c. rewrite !elem_of_children.
  rewrite Hag; [done|]. by apply prefix_app_r.
Qed.

(** Each walk of the source tree makes the calls [walk_ops] lists. *)
Lemma walk_eq s0 i fuel top t :
  src `prefix_of` top → agree_src src s0 t →
  os_walk_for order (loop_body src tgt i) fuel top t =
  exec (walk_ops order src tgt s0 i fuel top) t.
Proof.
  revert top t. induction fuel as [|fuel IH]; intros top t Hp Hag; [done|].
  cbn [walk_ops os_walk_for]. rewrite (agree_listable s0 t top Hag Hp).
  destruct (listable s0 top); [|done].
  rewrite (agree_children s0 t top Hag Hp).
  set (names := order top (children s0 top)).
  assert (Hf : ∀ b, filter (λ n, isdir t (top ++ [n]) = b) names =
                    filter (λ n, isdir s0 (top ++ [n]) = b) names).
  { intros b. apply list_filter_iff. intros n.
    rewrite (agree_isdir s0 t); [done|done|by apply prefix_app_r]. }
  rewrite !Hf, exec_app, loop_body_exec.
  apply bind_ext_Ok. intros t2 Ht2.
  assert (Hag2 : agree_src src s0 t2).
  { eapply exec_agree; [|exact Hag|exact Ht2]. apply body_ops_under. }
  clear Ht2 Hf. revert t2 Hag2.
  induction (filter (λ n, isdir s0 (top ++ [n]) = true) names) as [|d ds IHd];
    intros t2 Hag2; [done|].
  cbn [fold_res flat_map]. rewrite exec_app, IH; [|by apply prefix_app_r|done].
  apply bind_ext_Ok. intros t3 Ht3. apply IHd.
  eapply exec_agree; [|exact Hag2|exact Ht3]. apply walk_ops_under.
Qed.

(** The whole run makes the calls [replicate_ops] lists. *)
Lemma replicate_eq copies s0 :
  replicate order src tgt copies s0 = exec (replicate_ops order src tgt copies s0) s0.
Proof.
  unfold replicate, replicate_ops. rewrite exec_cons. simpl step.
  apply bind_ext_Ok. intros t Ht.
  assert (Hag : agree_src src s0 t).
  { eapply (step_agree s0 (OMakedirs tgt)); [simpl; done|by intros ??|exact Ht]. }
  clear Ht. revert t Hag. induction (seq 0 copies) as [|i l IHl]; intros t Hag;
    [done|].
  cbn [fold_res flat_map]. rewrite exec_app, (walk_eq s0) by done.
  apply bind_ext_Ok. intros t2 Ht2. apply IHl.
  eapply exec_agree; [|exact Hag|exact Ht2]. apply walk_ops_under.
Qed.

(** *** Which calls the run makes *)

Lemma children_file (s0 : fs) top f :
  f ∈ children s0 top → isdir s0 (top ++ [f]) = false → is_file s0 (top ++ [f]).
Proof.
  rewrite elem_of_children. intros [n Hn]. unfold isdir, stat.
  destruct (top ++ [f]) eqn:E; [by destruct top|]. rewrite Hn.
  destruct n as [r0 w0|r w o d]; [discriminate|]. intros _. by exists r, w, o, d.
Qed.

Lemma listed (s0 : fs) p f :
  listing_ok order → f ∈ order p (children s0 p) ↔ f ∈ children s0 p.
Proof. intros Hord. by rewrite (Hord p), elem_of_elements. Qed.

Lemma walk_ops_ok s0 copies i fuel D o :
  listing_ok order → (i < copies)%nat →
  o ∈ walk_ops order src tgt s0 i fuel (src ++ D) → op_ok s0 src tgt copies o.
Proof.
  intros Hord Hi. revert D. induction fuel as [|fuel IH]; intros D;
    cbn [walk_ops]; [set_solver|].
  destruct (listable s0 (src ++ D)) eqn:Hdir; [|set_solver].
  apply listable_isdir in Hdir.
  rewrite elem_of_app, elem_of_flat_map. intros [Ho|[d [_ Ho]]].
  - unfold body_ops, relpath in Ho. rewrite drop_app_length, elem_of_cons in Ho.
    destruct Ho as [->|Ho].
    + simpl. right. split; [lia|eauto].
    + apply list_elem_of_fmap in Ho as [f [-> Hf]].
      apply list_elem_of_filter in Hf as [Hfd Hf]. apply listed in Hf; [|done].
      pose proof (children_file _ _ _ Hf Hfd) as Hfile.
      simpl. exists D, f, i. rewrite <- !app_assoc in *. unfold gen_path. auto.
  - rewrite <- app_assoc in Ho. eapply IH. exact Ho.
Qed.

Lemma replicate_ops_ok s0 copies o :
  listing_ok order →
  o ∈ replicate_ops order src tgt copies s0 → op_ok s0 src tgt copies o.
Proof.
  intros Hord. unfold replicate_ops. rewrite elem_of_cons, elem_of_flat_map.
  intros [->|[i [Hi Ho]]]; [by left|].
  apply elem_of_seq in Hi. apply (walk_ops_ok s0 copies i (walk_fuel s0) []);
    [done|lia|]. by rewrite app_nil_r.
Qed.

Lemma walk_reach s0 i D : ∀ fuel top,
  (length D < fuel)%nat →
  (∀ D1 D2, D = D1 ++ D2 → listable s0 (top ++ D1) = true) →
  listing_ok order →
  OMakedirs (tgt ++ relpath (top ++ D) src) ∈ walk_ops order src tgt s0 i fuel top ∧
  ∀ f, is_file s0 ((top ++ D) ++ [f]) →
    OCopy ((top ++ D) ++ [f]) ((tgt ++ relpath (top ++ D) src) ++ [new_filename f i])
      ∈ walk_ops order src tgt s0 i fuel top.
Proof.
  induction D as [|d D IH]; intros [|fuel] top Hlen Hdirs Hord; simpl in Hlen;
    try lia; cbn [walk_ops].
  - assert (Ht : listable s0 top = true)
      by (rewrite <- (app_nil_r top); by apply (Hdirs [] [])).
    rewrite Ht, !app_nil_r. unfold body_ops. split.
    + apply elem_of_app. left. apply elem_of_cons. by left.
    + intros f (r & w & o & data & Hf). apply elem_of_app. left. apply elem_of_cons. right.
      apply list_elem_of_fmap. exists f. split; [done|].
      apply list_elem_of_filter. split.
      * unfold isdir, stat. destruct (top ++ [f]) eqn:E; [by destruct top|].
        by rewrite Hf.
      * apply listed; [done|]. apply elem_of_children. by rewrite Hf.
  - assert (Ht : listable s0 top = true)
      by (rewrite <- (app_nil_r top); by apply (Hdirs [] (d :: D))).
    rewrite Ht.
    assert (Hd : isdir s0 (top ++ [d]) = true)
      by (apply listable_isdir, (Hdirs [d] D); done).
    destruct (IH fuel (top ++ [d])) as [IH1 IH2]; [lia| |done|].
    { intros D1 D2 ->. rewrite <- app_assoc. by apply (Hdirs (d :: D1) D2). }
    replace ((top ++ [d]) ++ D) with (top ++ d :: D) in IH1, IH2
      by by rewrite <- app_assoc.
    assert (Hin : d ∈ filter (λ n, isdir s0 (top ++ [n]) = true)
                     (order top (children s0 top))).
    { apply list_elem_of_filter. split; [done|]. apply listed; [done|].
      apply elem_of_children.
      destruct (isdir_ne_lookup s0 (top ++ [d])) as [r [w Hw]]; [by destruct top|done|].
      by rewrite Hw. }
    split.
    + apply elem_of_app. right. apply elem_of_flat_map. eauto.
    + intros f Hf. apply elem_of_app. right. apply elem_of_flat_map.
      exists d. split; [done|]. by apply IH2.
Qed.

Lemma ops_reach s0 copies i D fuel :
  listing_ok order → (i < copies)%nat → (length D < fuel)%nat →
  (∀ D1 D2, D = D1 ++ D2 → listable s0 (src ++ D1) = true) →
  fuel = walk_fuel s0 →
  OMakedirs (tgt ++ D) ∈ replicate_ops order src tgt copies s0 ∧
  ∀ f, is_file s0 (src ++ D ++ [f]) →
    OCopy (src ++ D ++ [f]) (gen_path tgt D f i) ∈ replicate_ops order src tgt copies s0.
Proof.
  intros Hord Hi Hlen Hdirs ->.
  destruct (walk_reach s0 i D (walk_fuel s0) src Hlen Hdirs Hord) as [H1 H2].
  unfold relpath in H1, H2. rewrite drop_app_length in H1, H2.
  assert (Hin : ∀ o, o ∈ walk_ops order src tgt s0 i (walk_fuel s0) src →
                o ∈ replicate_ops order src tgt copies s0).
  { intros o Ho. unfold replicate_ops. apply elem_of_cons. right.
    apply elem_of_flat_map. exists i. split; [apply elem_of_seq; lia|done]. }
  split; [by apply Hin|]. intros f Hf. apply Hin.
  unfold gen_path. rewrite !app_assoc. apply H2. by rewrite <- app_assoc.
Qed.

(** Every directory of the source tree is asked for in the target tree. *)
Lemma mkdir_in_ops s0 copies i D :
  listing_ok order → wf s0 → listable_tree s0 src → (i < copies)%nat →
  isdir s0 (src ++ D) = true →
  OMakedirs (tgt ++ D) ∈ replicate_ops order src tgt copies s0.
Proof.
  intros Hord Hwf Hl Hi Hd.
  destruct (isdir_ne_lookup s0 (src ++ D)) as [r [w Hw]];
    [pose proof src_ne; by destruct src|done|].
  apply (ops_reach s0 copies i D (walk_fuel s0)); [done|done| |  |done].
  - apply fuel_bound in Hw. rewrite length_app in Hw.
    pose proof src_ne. destruct src; [done|simpl in Hw; lia].
  - intros D1 [|x D2] ->; apply listable_tree_listable; [done| |done|].
    + by rewrite app_nil_r in Hd.
    + apply (wf_prefix_isdir s0 _ _ _ Hwf Hw).
      * rewrite app_assoc. by apply prefix_app_r.
      * apply prefix_strict; [rewrite app_assoc; by apply prefix_app_r|].
        rewrite !length_app. simpl. lia.
Qed.

(** Every file of the source tree is copied in every pass. *)
Lemma copy_in_ops s0 copies i D f :
  listing_ok order → wf s0 → listable_tree s0 src → (i < copies)%nat →
  is_file s0 (src ++ D ++ [f]) →
  OCopy (src ++ D ++ [f]) (gen_path tgt D f i) ∈ replicate_ops order src tgt copies s0.
Proof.
  intros Hord Hwf Hl Hi Hf. pose proof Hf as (r & w & o & data & Hk).
  apply (ops_reach s0 copies i D (walk_fuel s0)); [done|done| | |done|done].
  - apply fuel_bound in Hk. rewrite !length_app in Hk. simpl in Hk. lia.
  - intros D1 D2 ->. apply listable_tree_listable; [done|].
    apply (wf_prefix_isdir s0 _ _ _ Hwf Hk).
    + rewrite <- app_assoc. apply prefix_app, prefix_app_r. done.
    + apply prefix_strict; [rewrite <- app_assoc; apply prefix_app, prefix_app_r; done|].
      rewrite !length_app. simpl. lia.
Qed.

(** *** What a run changes *)

Lemma run_inv_init s0 copies : run_inv s0 src tgt copies s0.
Proof.
  split; [by intros ??|]. split; [intros k Hk; by left|]. intros k. by left.
Qed.

Lemma step_inv s0 copies o t :
  op_ok s0 src tgt copies o → run_inv s0 src tgt copies t →
  run_inv s0 src tgt copies (res_state (step o t)).
Proof.
  intros Hop (Hag & Hdir & Hch). destruct o as [p|a b]; simpl step.
  - assert (Hmir : ∀ k, k `prefix_of` p → mirrored_dir s0 src tgt copies k).
    { intros k Hk. destruct Hop as [->|[Hc [D [HD ->]]]]; [by left|right; eauto]. }
    assert (Hu : tgt `prefix_of` p).
    { destruct Hop as [->|[_ [D [_ ->]]]]; [done|by apply prefix_app_r]. }
    pose proof (makedirs_frame p t) as Hf.
    set (t' := res_state (makedirs p t)) in *. split; [|split].
    + intros k Hk. destruct (Hf k) as [->|[Hkp _]]; [by apply Hag|].
      exfalso. by apply (under_not_src k p).
    + intros k Hk. destruct (Hf k) as [E|[Hkp _]]; [|right; by apply Hmir].
      apply Hdir. by rewrite <- (isdir_lookup_eq t t' k E).
    + intros k. destruct (Hf k) as [->|[Hkp [Hn Hd]]]; [apply Hch|].
      destruct (Hch k) as [E|[[_ [E _]]|Hg]]; [|congruence|by right; right].
      right; left. split; [congruence|]. split; [done|]. by apply Hmir.
  - destruct Hop as (D & f & i & Hi & Hfile & -> & ->).
    destruct (copy_state (src ++ D ++ [f]) (gen_path tgt D f i) t)
      as [->|(_ & _ & Hnd & _ & r & w & o & data & ->)]; [by split; [|split]|].
    set (c := copy_target t _ _) in *.
    assert (Hc : c = gen_path tgt D f i ∨ c = gen_path tgt D f i ++ [f]).
    { subst c. unfold copy_target.
      replace (basename (src ++ D ++ [f])) with f
        by (rewrite app_assoc; symmetry; apply basename_snoc).
      destruct (isdir t (gen_path tgt D f i)); [right|left]; reflexivity. }
    assert (Hu : tgt `prefix_of` c).
    { destruct Hc as [-> | ->]; unfold gen_path; [|rewrite <- app_assoc];
        by apply prefix_app_r. }
    split; [|split].
    + intros k Hk. destruct (decide (k = c)) as [->|Hne].
      * exfalso. by apply (under_not_src c c).
      * rewrite lookup_insert_ne by congruence. by apply Hag.
    + intros k Hk. destruct (decide (k = c)) as [->|Hne].
      * exfalso. unfold isdir in Hk. rewrite stat_insert_eq in Hk; [done|].
        intros E. rewrite E in Hu. apply tgt_ne. by apply prefix_nil_inv.
      * apply Hdir. rewrite <- Hk. symmetry. apply isdir_lookup_eq.
        by apply lookup_insert_ne.
    + intros k. destruct (decide (k = c)) as [->|Hne].
      * right; right. destruct Hc as [-> | ->]; [left|right]; exists D, f, i; auto.
      * rewrite lookup_insert_ne by congruence. apply Hch.
Qed.

Lemma exec_inv s0 copies l t :
  (∀ o, o ∈ l → op_ok s0 src tgt copies o) → run_inv s0 src tgt copies t →
  run_inv s0 src tgt copies (res_state (exec l t)).
Proof.
  revert t. induction l as [|o l IH]; intros t Hl Ht; [done|].
  rewrite exec_cons. pose proof (step_inv s0 copies o t) as Hs.
  destruct (step o t) as [t1|e t1]; simpl in *.
  - apply IH; [intros o' Ho'; apply Hl; by right|]. apply Hs; [apply Hl; by left|done].
  - apply Hs; [apply Hl; by left|done].
Qed.

(** Whatever its outcome, a run keeps the invariant. *)
Lemma replicate_inv s0 copies :
  listing_ok order →
  run_inv s0 src tgt copies (res_state (replicate order src tgt copies s0)).
Proof.
  intros Hord. rewrite replicate_eq. apply exec_inv; [|apply run_inv_init].
  intros o Ho. by apply (replicate_ops_ok s0 copies o Hord).
Qed.

(** A generated path is never a directory when no generated path names
    one at the start. *)
Lemma not_dir_gen s0 copies t D f i :
  wf s0 → no_collision s0 src tgt copies → dirs_from s0 src tgt copies t →
  (i < copies)%nat → is_file s0 (src ++ D ++ [f]) →
  isdir t (gen_path tgt D f i) = false.
Proof.
  intros Hwf Hnc Hdir Hi Hf. destruct (Hnc D f i Hi Hf) as [Hn1 Hn2].
  destruct (isdir t _) eqn:E; [|done]. exfalso.
  destruct (Hdir _ E) as [H0|[Hm|[_ [D'' [HD Hm]]]]].
  - unfold gen_path in H0. congruence.
  - apply prefix_length in Hm. unfold gen_path in Hm.
    rewrite !length_app in Hm. simpl in Hm. lia.
  - unfold gen_path in Hm. apply prefix_app_inv in Hm.
    apply (prefix_app src) in Hm.
    destruct (decide (src ++ D ++ [new_filename f i] = src ++ D'')) as [Eq|Hne].
    + rewrite Eq in Hn2. congruence.
    + destruct (isdir_ne_lookup s0 (src ++ D'')) as [r [w Hw]];
        [pose proof src_ne; by destruct src|done|].
      rewrite (wf_prefix_isdir s0 _ _ _ Hwf Hw Hm Hne) in Hn2. done.
Qed.

Lemma gen_path_inj s0 D1 f1 i1 D2 f2 i2 :
  names_ok s0 → is_file s0 (src ++ D1 ++ [f1]) → is_file s0 (src ++ D2 ++ [f2]) →
  gen_path tgt D1 f1 i1 = gen_path tgt D2 f2 i2 → D1 = D2 ∧ f1 = f2 ∧ i1 = i2.
Proof.
  intros Hn (r1 & w1 & o1 & d1 & H1) (r2 & w2 & o2 & d2 & H2) E. unfold gen_path in E.
  apply app_inv_head in E. apply app_inj_tail in E as [-> E].
  pose proof (Hn _ _ H1) as Hs1. pose proof (Hn _ _ H2) as Hs2.
  rewrite app_assoc, basename_snoc in Hs1, Hs2.
  destruct (PyStrFacts.new_filename_inj f1 f2 i1 i2 Hs1 Hs2 E). auto.
Qed.

(** Under no collision, a generated path keeps the copy of its source. *)
Lemma step_gen s0 copies o t t' D f i :
  wf s0 → names_ok s0 → no_collision s0 src tgt copies →
  op_ok s0 src tgt copies o → run_inv s0 src tgt copies t →
  (i < copies)%nat → is_file s0 (src ++ D ++ [f]) →
  step o t = Ok t' →
  (o = OCopy (src ++ D ++ [f]) (gen_path tgt D f i) ∨
   t !! gen_path tgt D f i = copied <$> s0 !! (src ++ D ++ [f])) →
  t' !! gen_path tgt D f i = copied <$> s0 !! (src ++ D ++ [f]).
Proof.
  intros Hwf Hn Hnc Hop (Hag & Hdir & _) Hi Hf Hst Hor.
  destruct o as [p|a b]; simpl in Hst.
  - destruct Hor as [Ho|Hg]; [discriminate|].
    pose proof (makedirs_frame p t) as Hfr. rewrite Hst in Hfr. simpl in Hfr.
    destruct (Hfr (gen_path tgt D f i)) as [->|[_ [Hnone _]]]; [done|].
    destruct Hf as (r & w & o & d & Hd). rewrite Hd in Hg. simpl in Hg. congruence.
  - destruct Hop as (D' & f' & i' & Hi' & Hf' & -> & ->).
    pose proof (not_dir_gen s0 copies t D' f' i' Hwf Hnc Hdir Hi' Hf') as Hnd.
    apply copy_Ok in Hst as (w & o & data & Hsrc & _ & _ & _ & _ & _ & ->).
    unfold copy_target. rewrite Hnd.
    destruct (decide (gen_path tgt D' f' i' = gen_path tgt D f i)) as [E|Hne].
    + destruct (gen_path_inj s0 D' f' i' D f i Hn Hf' Hf E) as (-> & -> & ->).
      rewrite lookup_insert_eq, <- Hag, Hsrc; [done|]. by apply prefix_app_r.
    + rewrite lookup_insert_ne by done.
      destruct Hor as [Ho|Hg]; [|done]. injection Ho as _ E. congruence.
Qed.

Lemma replicate_ops_all_ok s0 copies l1 o l2 :
  listing_ok order →
  replicate_ops order src tgt copies s0 = l1 ++ o :: l2 →
  (∀ o', o' ∈ l1 → op_ok s0 src tgt copies o') ∧ op_ok s0 src tgt copies o ∧
  (∀ o', o' ∈ l2 → op_ok s0 src tgt copies o').
Proof.
  intros Hord Hl. pose proof (replicate_ops_ok s0 copies) as Hok.
  setoid_rewrite Hl in Hok. split; [|split].
  - intros o' Ho'. apply Hok; [done|]. apply elem_of_app. by left.
  - apply Hok; [done|]. apply elem_of_app. right. by left.
  - intros o' Ho'. apply Hok; [done|]. apply elem_of_app. right. by right.
Qed.

(** Under no collision, a successful run leaves at the generated path of
    each copy it makes the entry of its source file. *)
Lemma gen_copied_in s0 copies s' D f i :
  listing_ok order → wf s0 → names_ok s0 → no_collision s0 src tgt copies →
  (i < copies)%nat → is_file s0 (src ++ D ++ [f]) →
  OCopy (src ++ D ++ [f]) (gen_path tgt D f i) ∈ replicate_ops order src tgt copies s0 →
  replicate order src tgt copies s0 = Ok s' →
  s' !! gen_path tgt D f i = copied <$> s0 !! (src ++ D ++ [f]).
Proof.
  intros Hord Hwf Hn Hnc Hi Hf Hin Hrun. rewrite replicate_eq in Hrun.
  apply list_elem_of_split in Hin as (l1 & l2 & Hl).
  destruct (replicate_ops_all_ok s0 copies _ _ _ Hord Hl) as (Hl1 & Ho & Hl2).
  rewrite Hl, exec_app in Hrun. apply bind_Ok in Hrun as [t1 [H1 H2]].
  rewrite exec_cons in H2. apply bind_Ok in H2 as [t2 [H2 H3]].
  pose proof (exec_inv s0 copies l1 s0 Hl1 (run_inv_init s0 copies)) as Hinv1.
  rewrite H1 in Hinv1. simpl in Hinv1.
  pose proof (step_inv s0 copies _ t1 Ho Hinv1) as Hinv2. rewrite H2 in Hinv2.
  simpl in Hinv2.
  assert (Ht2 : t2 !! gen_path tgt D f i = copied <$> s0 !! (src ++ D ++ [f])).
  { eapply (step_gen s0 copies _ t1 t2 D f i); eauto. }
  apply (exec_Ok_inv (λ u, run_inv s0 src tgt copies u ∧
                           u !! gen_path tgt D f i = copied <$> s0 !! (src ++ D ++ [f]))
            l2 t2 s');
    [|done|done].
  intros o u u' Hou [Hu Hg] Hs. split.
  - pose proof (step_inv s0 copies o u (Hl2 o Hou) Hu) as H. by rewrite Hs in H.
  - eapply (step_gen s0 copies o u u' D f i); eauto.
Qed.

(** When every directory of the source tree can be listed, that holds at
    the generated path of every source file. *)
Lemma gen_copied s0 copies s' D f i :
  listing_ok order → wf s0 → listable_tree s0 src → names_ok s0 →
  no_collision s0 src tgt copies →
  (i < copies)%nat → is_file s0 (src ++ D ++ [f]) →
  replicate order src tgt copies s0 = Ok s' →
  s' !! gen_path tgt D f i = copied <$> s0 !! (src ++ D ++ [f]).
Proof.
  intros Hord Hwf Hlt Hn Hnc Hi Hf Hrun.
  apply (gen_copied_in s0 copies s' D f i Hord Hwf Hn Hnc Hi Hf); [|exact Hrun].
  exact (copy_in_ops s0 copies i D f Hord Hwf Hlt Hi Hf).
Qed.

Lemma isdir_prefix_closed (s : fs) p k :
  wf s → isdir s p = true → k `prefix_of` p → isdir s k = true.
Proof.
  intros Hwf Hp Hk. destruct (decide (k = p)) as [->|Hne]; [done|].
  destruct p as [|x p].
  - apply prefix_nil_inv in Hk. by subst.
  - destruct (isdir_ne_lookup s (x :: p)) as [r [w Hw]]; [done|done|].
    by apply (wf_prefix_isdir s _ _ _ Hwf Hw).
Qed.

(** After a successful run, every directory Run.py asks for exists. *)
Lemma mirrored_present s0 copies s' k :
  listing_ok order → wf s0 → listable_tree s0 src →
  replicate order src tgt copies s0 = Ok s' →
  mirrored_dir s0 src tgt copies k → isdir s' k = true.
Proof.
  intros Hord Hwf Hlt Hrun Hm. rewrite replicate_eq in Hrun.
  pose proof (exec_wf _ _ _ Hwf Hrun) as Hwf'.
  destruct Hm as [Hk|[Hc [D [HD Hk]]]].
  - apply (isdir_prefix_closed s' tgt); [done| |done].
    unfold replicate_ops in Hrun. exact (exec_op_isdir [] tgt _ s0 s' Hrun).
  - apply (isdir_prefix_closed s' (tgt ++ D)); [done| |done].
    pose proof (mkdir_in_ops s0 copies 0 D Hord Hwf Hlt Hc HD) as Hin.
    apply list_elem_of_split in Hin as (l1 & l2 & Hl). rewrite Hl in Hrun.
    by eapply exec_op_isdir.
Qed.

(** Under no collision, what a successful run leaves at each path. *)
Lemma final_cases s0 copies s' k :
  listing_ok order → wf s0 → listable_tree s0 src → names_ok s0 →
  no_collision s0 src tgt copies →
  replicate order src tgt copies s0 = Ok s' →
  s' !! k = s0 !! k ∨
  (s0 !! k = None ∧ s' !! k = Some (Dir true true) ∧ mirrored_dir s0 src tgt copies k) ∨
  (∃ D f i, (i < copies)%nat ∧ is_file s0 (src ++ D ++ [f]) ∧
     k = gen_path tgt D f i ∧ s' !! k = copied <$> s0 !! (src ++ D ++ [f])) ∨
  (s' !! k = None ∧ s0 !! k = None).
Proof.
  intros Hord Hwf Hl Hn Hnc Hrun.
  pose proof (replicate_inv s0 copies Hord) as (_ & Hdir & Hch).
  rewrite Hrun in Hdir, Hch. simpl in Hdir, Hch.
  pose proof Hrun as Hrun'. rewrite replicate_eq in Hrun'.
  pose proof (exec_wf _ _ _ Hwf Hrun') as Hwf'.
  destruct (Hch k) as [E|[E|[(D & f & i & Hi & Hf & ->)|(D & f & i & Hi & Hf & ->)]]].
  - by left.
  - by right; left.
  - right; right; left. exists D, f, i. repeat split; [done|done|].
    by eapply gen_copied.
  - right; right; right.
    pose proof (not_dir_gen s0 copies s' D f i Hwf Hnc Hdir Hi Hf) as Hnd'.
    pose proof (not_dir_gen s0 copies s0 D f i Hwf Hnc) as Hnd0.
    assert (Hpar : ∀ (t : fs), wf t → isdir t (gen_path tgt D f i) = false →
                     t !! (gen_path tgt D f i ++ [f]) = None).
    { intros t Hwt Hnd. destruct (t !! _) as [n|] eqn:Ht; [|done].
      destruct (Hwt _ _ Ht) as [_ [r [w Hw]]]. unfold parent in Hw.
      rewrite removelast_last in Hw. unfold isdir in Hnd. by rewrite Hw in Hnd. }
    split; apply Hpar; auto.
    apply Hnd0; [|done|done]. intros k' Hk'. by left.
Qed.

(** With an empty target tree and no collision, a successful run makes
    one file per source file and pass. *)
Lemma count_run s0 copies s' :
  listing_ok order → wf s0 → listable_tree s0 src → names_ok s0 →
  (∀ k, tgt `prefix_of` k → k ≠ tgt → s0 !! k = None) →
  (∀ D f i, (i < copies)%nat → is_file s0 (src ++ D ++ [f]) →
     isdir s0 (src ++ D ++ [new_filename f i]) = false) →
  replicate order src tgt copies s0 = Ok s' →
  count_files s' tgt = (length (file_keys s0 src) * copies)%nat.
Proof.
  intros Hord Hwf Hl Hn Hempty Hsrc Hrun.
  assert (Hgen : ∀ D f i, gen_path tgt D f i ≠ [] ∧ tgt `prefix_of` gen_path tgt D f i ∧
                          gen_path tgt D f i ≠ tgt).
  { intros D f i. unfold gen_path.
    split; [intros E; apply (f_equal length) in E; rewrite !length_app in E; simpl in E; lia|].
    split; [by apply prefix_app_r|].
    intros E. apply (f_equal length) in E. rewrite !length_app in E. simpl in E. lia. }
  assert (Hnc : no_collision s0 src tgt copies).
  { intros D f i Hi Hf. split; [|by apply Hsrc].
    destruct (Hgen D f i) as (H1 & H2 & H3). unfold gen_path in *.
    unfold isdir. rewrite stat_cons_ne by done. by rewrite Hempty. }
  set (GL := (λ ki : path * nat, gen_of src tgt ki.1 ki.2) <$>
               list_prod (file_keys s0 src) (seq 0 copies)).
  assert (Hperm : file_keys s' tgt ≡ₚ GL).
  { apply NoDup_Permutation; [apply NoDup_file_keys| |].
    - apply NoDup_fmap_2_strong.
      + intros [k1 i1] [k2 i2] H1 H2 E. simpl in E.
        apply elem_of_list_prod in H1 as [H1 _], H2 as [H2 _].
        destruct (file_key_split _ _ _ H1) as (D1 & f1 & -> & Hf1).
        destruct (file_key_split _ _ _ H2) as (D2 & f2 & -> & Hf2).
        rewrite !gen_of_spec in E.
        by destruct (gen_path_inj s0 D1 f1 i1 D2 f2 i2 Hn Hf1 Hf2 E) as (-> & -> & ->).
      + apply NoDup_list_prod; [apply NoDup_file_keys|apply NoDup_seq].
    - intros k. rewrite elem_of_file_keys. unfold GL. rewrite list_elem_of_fmap. split.
      + intros (Hp & Hne & r & w & o & d & Hk).
        destruct (final_cases s0 copies s' k Hord Hwf Hl Hn Hnc Hrun)
          as [E|[(_ & E & _)|[(D & f & i & Hi & Hf & -> & _)|(E & _)]]]; try congruence.
        * exfalso. rewrite Hempty in E by done. congruence.
        * exists (src ++ D ++ [f], i). simpl. rewrite gen_of_spec. split; [done|].
          apply elem_of_list_prod. split; [|apply elem_of_seq; lia].
          apply elem_of_file_keys. split; [by apply prefix_app_r|]. split; [|done].
          intros E. apply (f_equal length) in E. rewrite !length_app in E. simpl in E. lia.
      + intros [[k0 i] [-> Hin]]. apply elem_of_list_prod in Hin as [Hk0 Hi].
        apply elem_of_seq in Hi.
        destruct (file_key_split _ _ _ Hk0) as (D & f & -> & Hf). simpl.
        rewrite gen_of_spec. destruct (Hgen D f i) as (_ & H2 & H3).
        split; [done|]. split; [done|].
        unfold is_file.
        rewrite (gen_copied s0 copies s' D f i Hord Hwf Hl Hn Hnc ltac:(lia) Hf Hrun).
        destruct Hf as (r & w & o & d & ->). by exists r, w, true, d. }
  unfold count_files. rewrite (Permutation_length Hperm). unfold GL.
  by rewrite length_fmap, length_prod, length_seq.
Qed.

End Walk.

(** *** Runs under two listing orders

    A walk of [source_dir/D] writes below [target_dir/D] only, and its
    outcome there depends only on what lies there and on the source tree.
    The walks of two sibling directories, and the copies of two files of
    one directory, write to disjoint parts of the target tree; so the order
    in which they run does not change what a successful run leaves. *)

Lemma fold_Ok_inv {A : Type} (F : A → fs → res) (P : fs → Prop) L t t' :
  (∀ x u u', x ∈ L → P u → F x u = Ok u' → P u') → P t → fold_res F L t = Ok t' → P t'.
Proof.
  revert t. induction L as [|x L IH]; intros t Hs Ht H; simpl in H.
  - by injection H as <-.
  - apply bind_Ok in H as [u [Hu Hk]].
    eapply IH; [|eapply Hs; [left|..]; eauto|exact Hk].
    intros y v v' Hy. apply Hs. by right.
Qed.

Lemma fold_split {A : Type} (F : A → fs → res) L1 x L2 t t' :
  fold_res F (L1 ++ x :: L2) t = Ok t' →
  ∃ u u', fold_res F L1 t = Ok u ∧ F x u = Ok u' ∧ fold_res F L2 u' = Ok t'.
Proof.
  rewrite fold_res_app. intros H. apply bind_Ok in H as [u [H1 H2]].
  simpl in H2. apply bind_Ok in H2 as [u' [H2 H3]]. eauto.
Qed.

(** A loop whose every iteration leaves the path [k] alone leaves it
    alone. *)
Lemma fold_frame {A : Type} (F : A → fs → res) (Pre : fs → Prop) (R : A → path → Prop)
    L t t' k :
  (∀ x u u', Pre u → F x u = Ok u' → Pre u') →
  (∀ x u u', Pre u → F x u = Ok u' → ∀ k, ¬ R x k → u' !! k = u !! k) →
  Pre t → (∀ x, x ∈ L → ¬ R x k) → fold_res F L t = Ok t' → t' !! k = t !! k.
Proof.
  intros Hp Hf. revert t. induction L as [|x L IH]; intros t Ht HL H; simpl in H.
  - by injection H as <-.
  - apply bind_Ok in H as [u [Hu Hk]].
    rewrite (IH u); [|eauto|intros y Hy; apply HL; by right|done].
    eapply Hf; [exact Ht|exact Hu|]. apply HL. by left.
Qed.

(** Two loops over permutations of the same items, where the item [x]
    writes only in its region [R x], regions of distinct items are
    disjoint, and the outcome in [R x] depends only on the state there,
    agree on the union of the regions. *)
Lemma fold_det {A : Type} (F1 F2 : A → fs → res) (Pre : fs → Prop) (R : A → path → Prop)
    (U : path → Prop) L1 L2 t1 t2 t1' t2' :
  (∀ x k, Decision (R x k)) →
  (∀ x u u', Pre u → F1 x u = Ok u' → Pre u') →
  (∀ x u u', Pre u → F2 x u = Ok u' → Pre u') →
  (∀ x u u', Pre u → F1 x u = Ok u' → ∀ k, ¬ R x k → u' !! k = u !! k) →
  (∀ x u u', Pre u → F2 x u = Ok u' → ∀ k, ¬ R x k → u' !! k = u !! k) →
  (∀ x u1 u2 u1' u2', x ∈ L1 → Pre u1 → Pre u2 → (∀ k, R x k → u1 !! k = u2 !! k) →
     F1 x u1 = Ok u1' → F2 x u2 = Ok u2' → ∀ k, R x k → u1' !! k = u2' !! k) →
  (∀ x y k, x ∈ L1 → y ∈ L1 → R x k → R y k → x = y) →
  NoDup L1 → L1 ≡ₚ L2 →
  (∀ x k, x ∈ L1 → R x k → U k) →
  Pre t1 → Pre t2 → (∀ k, U k → t1 !! k = t2 !! k) →
  fold_res F1 L1 t1 = Ok t1' → fold_res F2 L2 t2 = Ok t2' →
  ∀ k, U k → t1' !! k = t2' !! k.
Proof.
  intros Hdec Hp1 Hp2 Hf1 Hf2 Hdet Hdisj Hnd Hperm HU Ht1 Ht2 Hag H1 H2 k Hk.
  assert (Hnd2 : NoDup L2) by (by rewrite <- Hperm).
  assert (HL21 : ∀ y, y ∈ L2 → y ∈ L1) by (intros y; by rewrite Hperm).
  destruct (decide (Exists (λ x, R x k) L1)) as [Hex|Hnex].
  - apply Exists_exists in Hex as [x [Hx Hr]].
    assert (Hx2 : x ∈ L2) by (by rewrite <- Hperm).
    pose proof Hx as Hx1.
    apply list_elem_of_split in Hx1 as (A1 & B1 & E1).
    apply list_elem_of_split in Hx2 as (A2 & B2 & E2).
    rewrite E1 in H1, Hnd. rewrite E2 in H2, Hnd2.
    assert (Hin1 : ∀ y, y ∈ A1 ∨ y ∈ B1 → y ∈ L1)
      by (intros y Hy; rewrite E1, elem_of_app, elem_of_cons; tauto).
    assert (Hin2 : ∀ y, y ∈ A2 ∨ y ∈ B2 → y ∈ L1)
      by (intros y Hy; apply HL21; rewrite E2, elem_of_app, elem_of_cons; tauto).
    apply NoDup_app in Hnd as (_ & HA1 & HB1). apply NoDup_cons in HB1 as [HB1 _].
    apply NoDup_app in Hnd2 as (_ & HA2 & HB2). apply NoDup_cons in HB2 as [HB2 _].
    assert (Hout : ∀ y k', y ∈ L1 → y ≠ x → R x k' → ¬ R y k').
    { intros y k' Hy Hne HRx HRy. apply Hne. by apply (Hdisj y x k'). }
    destruct (fold_split F1 A1 x B1 t1 t1' H1) as (u1 & u1' & Hu1 & Hx1 & Hv1).
    destruct (fold_split F2 A2 x B2 t2 t2' H2) as (u2 & u2' & Hu2 & Hx2 & Hv2).
    assert (Pu1 : Pre u1) by (eapply (fold_Ok_inv F1 Pre A1); [intros; eauto|exact Ht1|exact Hu1]).
    assert (Pu2 : Pre u2) by (eapply (fold_Ok_inv F2 Pre A2); [intros; eauto|exact Ht2|exact Hu2]).
    assert (Hagx : ∀ k', R x k' → u1 !! k' = u2 !! k').
    { intros k' Hk'.
      rewrite (fold_frame F1 Pre R A1 t1 u1 k' Hp1 Hf1 Ht1); [| |exact Hu1].
      2: { intros y Hy. apply (Hout y k'); [apply Hin1; by left|intros ->; by apply (HA1 x Hy); left|done]. }
      rewrite (fold_frame F2 Pre R A2 t2 u2 k' Hp2 Hf2 Ht2); [| |exact Hu2].
      2: { intros y Hy. apply (Hout y k'); [apply Hin2; by left|intros ->; by apply (HA2 x Hy); left|done]. }
      apply Hag. by apply (HU x). }
    rewrite (fold_frame F1 Pre R B1 u1' t1' k Hp1 Hf1); [|eauto| |exact Hv1].
    2: { intros y Hy. apply (Hout y k); [apply Hin1; by right|by intros ->|done]. }
    rewrite (fold_frame F2 Pre R B2 u2' t2' k Hp2 Hf2); [|eauto| |exact Hv2].
    2: { intros y Hy. apply (Hout y k); [apply Hin2; by right|by intros ->|done]. }
    apply (Hdet x u1 u2 u1' u2'); auto.
  - assert (Hno : ∀ y, y ∈ L1 → ¬ R y k).
    { intros y Hy HR. apply Hnex. apply Exists_exists. eauto. }
    rewrite (fold_frame F1 Pre R L1 t1 t1' k Hp1 Hf1 Ht1 Hno H1).
    rewrite (fold_frame F2 Pre R L2 t2 t2' k Hp2 Hf2 Ht2); [by apply Hag| |exact H2].
    intros y Hy. apply Hno. by apply HL21.
Qed.

Lemma exec_flat_map {A : Type} (g : A → list op) L t :
  exec (flat_map g L) t = fold_res (λ x, exec (g x)) L t.
Proof.
  revert t. induction L as [|x L IH]; intros t; [done|].
  cbn [flat_map fold_res]. rewrite exec_app. apply bind_ext. intros u. apply IH.
Qed.

Lemma parent_snoc (l : path) x : parent (l ++ [x]) = l.
Proof. apply removelast_last. Qed.

Lemma parent_prefix (k : path) : parent k `prefix_of` k.
Proof.
  destruct k as [|x k _] using rev_ind; [done|].
  rewrite parent_snoc. by apply prefix_app_r.
Qed.

Lemma snoc_prefix_eq (l k : path) x y :
  l ++ [x] `prefix_of` k → l ++ [y] `prefix_of` k → x = y.
Proof.
  intros Hx Hy. destruct (prefix_weak_total _ _ _ Hx Hy) as [H|H];
    apply prefix_app_inv in H as [r Hr]; simpl in Hr; by injection Hr.
Qed.

Lemma listing_perm o1 o2 p X : listing_ok o1 → listing_ok o2 → o1 p X ≡ₚ o2 p X.
Proof. intros H1 H2. by rewrite (H1 p X), (H2 p X). Qed.

Lemma listing_NoDup o p X : listing_ok o → NoDup (o p X).
Proof. intros H. rewrite (H p X). apply NoDup_elements. Qed.

(** A successful [shutil.copy(a, b)] writes below [b] only. *)
Lemma copy_frame a b t t' :
  copy a b t = Ok t' → ∀ k, ¬ b `prefix_of` k → t' !! k = t !! k.
Proof.
  intros Hst k Hk.
  apply copy_Ok in Hst as (w & o & data & _ & _ & _ & _ & _ & _ & ->).
  rewrite lookup_insert_ne; [done|]. intros E. apply Hk. rewrite <- E.
  apply copy_target_prefix.
Qed.

(** What a successful [shutil.copy(a, b)] leaves below [b] depends only on
    the source file and on what lies below [b]. *)
Lemma copy_det a b t1 t2 t1' t2' :
  t1 !! a = t2 !! a → (∀ k, b `prefix_of` k → t1 !! k = t2 !! k) →
  copy a b t1 = Ok t1' → copy a b t2 = Ok t2' →
  ∀ k, b `prefix_of` k → t1' !! k = t2' !! k.
Proof.
  intros Ha Hb H1 H2 k Hk.
  apply copy_Ok in H1 as (w1 & o1 & d1 & Ha1 & _ & _ & _ & _ & _ & ->).
  apply copy_Ok in H2 as (w2 & o2 & d2 & Ha2 & _ & _ & _ & _ & _ & ->).
  rewrite Ha in Ha1. rewrite Ha1 in Ha2. injection Ha2 as <- <- <-.
  assert (Hc : copy_target t1 a b = copy_target t2 a b).
  { unfold copy_target. by rewrite (isdir_lookup_eq t2 t1 b (Hb b (reflexivity _))). }
  rewrite Hc. destruct (decide (copy_target t2 a b = k)) as [<-|Hne].
  - by rewrite !lookup_insert_eq.
  - rewrite !lookup_insert_ne by done. by apply Hb.
Qed.

(** [os.makedirs(p)] in an existing directory creates [p] alone. *)
Lemma makedirs_under_dir p t t' :
  p ≠ [] → isdir t (parent p) = true → makedirs p t = Ok t' →
  t' = match t !! p with None => <[p := Dir true true]> t | Some _ => t end.
Proof.
  intros Hpn Hpar. unfold makedirs.
  destruct (rev p) as [|x rh] eqn:E.
  { exfalso. apply Hpn. by rewrite <- (rev_involutive p), E. }
  assert (Hp : p = rev rh ++ [x]) by (rewrite <- (rev_involutive p), E; done).
  assert (Hex : exists_ t (rev rh) = true).
  { rewrite Hp, parent_snoc in Hpar. unfold exists_, isdir in *.
    by destruct (stat t (rev rh)). }
  cbn [makedirs_rev]. rewrite Hex. simpl.
  unfold mkdir. rewrite <- Hp. rewrite (stat_cons_ne t p Hpn).
  destruct (t !! p) as [n|] eqn:Hn.
  - destruct (isdir t p); [by intros [= <-]|discriminate].
  - unfold isdir in Hpar. destruct (stat t (parent p)) as [[r [|]|r w o d]|];
      try discriminate.
    + by intros [= <-].
    + unfold isdir. rewrite (stat_cons_ne t p Hpn), Hn. discriminate.
Qed.

(** A call below the directory [p] changes nothing outside [p]. *)
Lemma step_frame_under o p t t' :
  wf t → isdir t p = true → op_under p o → step o t = Ok t' →
  ∀ k, ¬ p `prefix_of` k → t' !! k = t !! k.
Proof.
  intros Hwf Hp Hu Hst k Hk. destruct o as [q|a b]; simpl in Hu, Hst.
  - pose proof (makedirs_frame q t) as Hf. rewrite Hst in Hf. simpl in Hf.
    destruct (Hf k) as [E|(Hkq & Hn & Hd)]; [done|exfalso].
    destruct (prefix_weak_total k p q Hkq Hu) as [Hkp|Hpk]; [|done].
    pose proof (makedirs_wf q t Hwf) as W. rewrite Hst in W. simpl in W.
    destruct (W _ _ Hd) as [Hkn _].
    pose proof (isdir_prefix_closed t p k Hwf Hp Hkp) as Hdk.
    unfold isdir in Hdk. rewrite stat_cons_ne in Hdk by done. by rewrite Hn in Hdk.
  - apply (copy_frame a b t t' Hst). intros Hb. apply Hk. by trans b.
Qed.

Lemma exec_frame_under l p t t' :
  wf t → isdir t p = true → (∀ o, o ∈ l → op_under p o) → exec l t = Ok t' →
  ∀ k, ¬ p `prefix_of` k → t' !! k = t !! k.
Proof.
  intros Hwf Hp Hl Hrun k Hk.
  assert (H : wf t' ∧ isdir t' p = true ∧ t' !! k = t !! k).
  { apply (exec_Ok_inv (λ u, wf u ∧ isdir u p = true ∧ u !! k = t !! k) l t t');
      [|done|done].
    intros o u u' Ho (Hw & Hd & E) Hs. split_and!.
    - by eapply step_wf.
    - by eapply step_isdir.
    - rewrite <- E. eapply step_frame_under; eauto. }
  apply H.
Qed.

Section Order.
Variables (src tgt : path).
Hypothesis Hinc : incomparable src tgt.

Lemma walk_ops_under_rel order s0 i fuel D o :
  o ∈ walk_ops order src tgt s0 i fuel (src ++ D) → op_under (tgt ++ D) o.
Proof.
  revert D. induction fuel as [|fuel IH]; intros D; cbn [walk_ops]; [set_solver|].
  destruct (listable s0 (src ++ D)); [|set_solver].
  rewrite elem_of_app, elem_of_flat_map. intros [Ho|[d [_ Ho]]].
  - unfold body_ops, relpath in Ho. rewrite drop_app_length in Ho.
    apply elem_of_cons in Ho as [->|Ho]; simpl; [done|].
    apply list_elem_of_fmap in Ho as [f [-> _]]. simpl. by apply prefix_app_r.
  - rewrite <- app_assoc in Ho. apply IH in Ho.
    destruct o; simpl in *;
      (trans (tgt ++ D ++ [d]); [rewrite app_assoc; by apply prefix_app_r|done]).
Qed.

Lemma walk_ops_shape order s0 i fuel D :
  walk_ops order src tgt s0 i fuel (src ++ D) = [] ∨
  ∃ rest, walk_ops order src tgt s0 i fuel (src ++ D) = OMakedirs (tgt ++ D) :: rest.
Proof.
  destruct fuel as [|fuel]; [by left|]. cbn [walk_ops].
  destruct (listable s0 (src ++ D)); [right|by left].
  unfold body_ops, relpath. rewrite drop_app_length. by eexists.
Qed.

(** The walk of [source_dir/D] changes nothing outside [target_dir/D]. *)
Lemma walk_frame order s0 i fuel D t t' :
  wf t → isdir t (parent (tgt ++ D)) = true →
  exec (walk_ops order src tgt s0 i fuel (src ++ D)) t = Ok t' →
  ∀ k, ¬ (tgt ++ D) `prefix_of` k → t' !! k = t !! k.
Proof.
  intros Hwf Hpar Hrun k Hk.
  assert (Hnil : tgt ++ D ≠ []) by (pose proof (tgt_ne src tgt Hinc); by destruct tgt).
  pose proof (walk_ops_under_rel order s0 i fuel D) as Hu.
  destruct (walk_ops_shape order s0 i fuel D) as [E|[rest E]]; rewrite E in Hrun, Hu.
  - by injection Hrun as <-.
  - rewrite exec_cons in Hrun. cbn [step] in Hrun.
    apply bind_Ok in Hrun as [u [Hm Hrest]].
    pose proof (makedirs_under_dir _ _ _ Hnil Hpar Hm) as Eu.
    assert (Eku : u !! k = t !! k).
    { rewrite Eu. destruct (t !! (tgt ++ D)); [done|].
      apply lookup_insert_ne. intros E'. apply Hk. by rewrite E'. }
    rewrite <- Eku. eapply exec_frame_under; [| | |exact Hrest|exact Hk].
    + pose proof (makedirs_wf (tgt ++ D) t Hwf) as W. by rewrite Hm in W.
    + by eapply makedirs_isdir.
    + intros o Ho. apply Hu. by right.
Qed.

(** The walks of [source_dir/D] under two listing orders, from states
    that agree below [target_dir/D], leave states that agree there. *)
Lemma walk_det o1 o2 s0 i :
  listing_ok o1 → listing_ok o2 → names_ok s0 →
  ∀ fuel D t1 t2 t1' t2',
  wf t1 → wf t2 → agree_src src s0 t1 → agree_src src s0 t2 →
  isdir t1 (parent (tgt ++ D)) = true → isdir t2 (parent (tgt ++ D)) = true →
  (∀ k, (tgt ++ D) `prefix_of` k → t1 !! k = t2 !! k) →
  exec (walk_ops o1 src tgt s0 i fuel (src ++ D)) t1 = Ok t1' →
  exec (walk_ops o2 src tgt s0 i fuel (src ++ D)) t2 = Ok t2' →
  ∀ k, (tgt ++ D) `prefix_of` k → t1' !! k = t2' !! k.
Proof.
  intros H1 H2 Hn fuel. induction fuel as [|fuel IH];
    intros D t1 t2 t1' t2' W1 W2 A1 A2 P1 P2 Hag R1 R2.
  { simpl in R1, R2. injection R1 as <-. injection R2 as <-. exact Hag. }
  assert (Hnil : tgt ++ D ≠ []) by (pose proof (tgt_ne src tgt Hinc); by destruct tgt).
  cbn [walk_ops] in R1, R2. destruct (listable s0 (src ++ D)) eqn:Hl;
    [|injection R1 as <-; injection R2 as <-; exact Hag].
  rewrite exec_app in R1, R2.
  apply bind_Ok in R1 as [v1 [B1 S1]]. apply bind_Ok in R2 as [v2 [B2 S2]].
  unfold body_ops, relpath in B1, B2. rewrite drop_app_length in B1, B2.
  rewrite exec_cons in B1, B2. cbn [step] in B1, B2.
  apply bind_Ok in B1 as [u1 [M1 C1]]. apply bind_Ok in B2 as [u2 [M2 C2]].
  unfold exec in C1, C2. rewrite <- fold_res_map in C1, C2. cbn [step] in C1, C2.
  rewrite exec_flat_map in S1, S2.
  set (X := children s0 (src ++ D)) in *.
  set (Pre := λ u, wf u ∧ agree_src src s0 u ∧ isdir u (tgt ++ D) = true).
  assert (Hsep : ∀ f, f ∈ X → sep_free f).
  { intros f Hf. apply elem_of_children in Hf as [n Hf].
    pose proof (Hn _ _ Hf) as Hs. by rewrite basename_snoc in Hs. }
  assert (Hlist : ∀ o f, listing_ok o → f ∈ o (src ++ D) X → f ∈ X).
  { intros o f Ho Hf. by apply (listed o s0 (src ++ D) f Ho). }
  (* the first call: [os.makedirs(target_dir/D)] *)
  assert (Pu : ∀ t u, wf t → agree_src src s0 t → makedirs (tgt ++ D) t = Ok u → Pre u).
  { intros t u Wt At Mt. split_and!.
    - pose proof (makedirs_wf (tgt ++ D) t Wt) as W. by rewrite Mt in W.
    - eapply (step_agree src tgt Hinc s0 (OMakedirs (tgt ++ D))); [|exact At|exact Mt].
      simpl. by apply prefix_app_r.
    - by eapply makedirs_isdir. }
  assert (Hagu : ∀ k, (tgt ++ D) `prefix_of` k → u1 !! k = u2 !! k).
  { intros k Hk.
    rewrite (makedirs_under_dir _ _ _ Hnil P1 M1), (makedirs_under_dir _ _ _ Hnil P2 M2).
    rewrite (Hag (tgt ++ D)) by done.
    destruct (t2 !! (tgt ++ D)); [by apply Hag|].
    destruct (decide (tgt ++ D = k)) as [<-|Hne].
    - by rewrite !lookup_insert_eq.
    - rewrite !lookup_insert_ne by done. by apply Hag. }
  (* the copies of the files of [source_dir/D] *)
  assert (Hagv : ∀ k, (tgt ++ D) `prefix_of` k → v1 !! k = v2 !! k).
  { eapply (fold_det _ _ Pre (λ f k, ((tgt ++ D) ++ [new_filename f i]) `prefix_of` k)
              (λ k, (tgt ++ D) `prefix_of` k)); [| | | | | | | | | | | | |exact C1|exact C2].
    - intros f k. apply _.
    - intros f u u' (Wu & Au & Du) Hc. split_and!.
      + by eapply copy_wf.
      + eapply (step_agree src tgt Hinc s0 (OCopy _ _)); [|exact Au|exact Hc].
        simpl. rewrite <- app_assoc. by apply prefix_app_r.
      + by eapply (step_isdir (OCopy _ _)).
    - intros f u u' (Wu & Au & Du) Hc. split_and!.
      + by eapply copy_wf.
      + eapply (step_agree src tgt Hinc s0 (OCopy _ _)); [|exact Au|exact Hc].
        simpl. rewrite <- app_assoc. by apply prefix_app_r.
      + by eapply (step_isdir (OCopy _ _)).
    - intros f u u' _ Hc. exact (copy_frame _ _ u u' Hc).
    - intros f u u' _ Hc. exact (copy_frame _ _ u u' Hc).
    - intros f w1 w2 w1' w2' _ (_ & Aw1 & _) (_ & Aw2 & _) Hw.
      apply copy_det; [|done].
      rewrite Aw1, Aw2; [done| |]; rewrite <- app_assoc; by apply prefix_app_r.
    - intros f g k Hf Hg HRf HRg.
      apply list_elem_of_filter in Hf as [_ Hf], Hg as [_ Hg].
      pose proof (snoc_prefix_eq _ _ _ _ HRf HRg) as E.
      apply (PyStrFacts.new_filename_inj f g i i);
        [apply Hsep, (Hlist o1 f H1 Hf)|apply Hsep, (Hlist o1 g H1 Hg)|exact E].
    - apply NoDup_filter, listing_NoDup, H1.
    - by rewrite (listing_perm o1 o2 (src ++ D) X H1 H2).
    - intros f k _ Hk. etrans; [|exact Hk]. by apply prefix_app_r.
    - by apply (Pu t1).
    - by apply (Pu t2).
    - exact Hagu. }
  (* the walks of the subdirectories *)
  assert (Pv1 : Pre v1).
  { refine (fold_Ok_inv _ Pre _ u1 v1 _ (Pu t1 u1 W1 A1 M1) C1).
    intros f u u' _ (Wu & Au & Du) Hc. split_and!.
    - by eapply copy_wf.
    - eapply (step_agree src tgt Hinc s0 (OCopy _ _)); [|exact Au|exact Hc].
      simpl. rewrite <- app_assoc. by apply prefix_app_r.
    - by eapply (step_isdir (OCopy _ _)). }
  assert (Pv2 : Pre v2).
  { refine (fold_Ok_inv _ Pre _ u2 v2 _ (Pu t2 u2 W2 A2 M2) C2).
    intros f u u' _ (Wu & Au & Du) Hc. split_and!.
    - by eapply copy_wf.
    - eapply (step_agree src tgt Hinc s0 (OCopy _ _)); [|exact Au|exact Hc].
      simpl. rewrite <- app_assoc. by apply prefix_app_r.
    - by eapply (step_isdir (OCopy _ _)). }
  assert (Pw : ∀ o d u u', Pre u →
            exec (walk_ops o src tgt s0 i fuel ((src ++ D) ++ [d])) u = Ok u' → Pre u').
  { intros o d u u' (Wu & Au & Du) He. split_and!.
    - by eapply exec_wf.
    - eapply (exec_agree src tgt Hinc s0); [|exact Au|exact He].
      intros o' Ho'. by eapply walk_ops_under.
    - by eapply exec_isdir. }
  assert (Fw : ∀ o d u u', Pre u →
            exec (walk_ops o src tgt s0 i fuel ((src ++ D) ++ [d])) u = Ok u' →
            ∀ k, ¬ (tgt ++ D ++ [d]) `prefix_of` k → u' !! k = u !! k).
  { intros o d u u' (Wu & Au & Du) He. rewrite <- app_assoc in He.
    apply (walk_frame o s0 i fuel (D ++ [d]) u u' Wu); [|exact He].
    by rewrite app_assoc, parent_snoc. }
  eapply (fold_det _ _ Pre (λ d k, (tgt ++ D ++ [d]) `prefix_of` k)
            (λ k, (tgt ++ D) `prefix_of` k)); [| | | | | | | | | |exact Pv1|exact Pv2|exact Hagv|exact S1|exact S2].
  - intros d k. apply _.
  - intros d. apply Pw.
  - intros d. apply Pw.
  - intros d. apply Fw.
  - intros d. apply Fw.
  - intros d w1 w2 w1' w2' _ (Ww1 & Aw1 & Dw1) (Ww2 & Aw2 & Dw2) Hw E1 E2.
    rewrite <- app_assoc in E1, E2.
    apply (IH (D ++ [d]) w1 w2 w1' w2'); try done;
      by rewrite app_assoc, parent_snoc.
  - intros d e k _ _ Hd He. rewrite app_assoc in Hd, He.
    exact (snoc_prefix_eq _ _ _ _ Hd He).
  - apply NoDup_filter, listing_NoDup, H1.
  - by rewrite (listing_perm o1 o2 (src ++ D) X H1 H2).
  - intros d k _ Hk. etrans; [|exact Hk]. rewrite app_assoc. by apply prefix_app_r.
Qed.

(** Two successful runs under two listing orders leave the same
    filesystem. *)
Lemma replicate_order_indep o1 o2 copies s0 s1 s2 :
  listing_ok o1 → listing_ok o2 → wf s0 → names_ok s0 →
  replicate o1 src tgt copies s0 = Ok s1 → replicate o2 src tgt copies s0 = Ok s2 →
  s1 = s2.
Proof.
  intros H1 H2 Hwf Hn R1 R2.
  rewrite (replicate_eq o1 src tgt Hinc) in R1. rewrite (replicate_eq o2 src tgt Hinc) in R2.
  unfold replicate_ops in R1, R2. rewrite exec_cons in R1, R2. cbn [step] in R1, R2.
  destruct (makedirs tgt s0) as [t|e t] eqn:Hm; [|discriminate]. cbn [bind] in R1, R2.
  assert (Wt : wf t) by (pose proof (makedirs_wf tgt s0 Hwf) as W; by rewrite Hm in W).
  assert (At : agree_src src s0 t).
  { eapply (step_agree src tgt Hinc s0 (OMakedirs tgt)); [simpl; done|by intros ??|exact Hm]. }
  assert (Dt : isdir t tgt = true) by (eapply makedirs_isdir; exact Hm).
  rewrite !exec_flat_map in R1, R2. clear Hm.
  revert t Wt At Dt R1 R2. induction (seq 0 copies) as [|i l IH];
    intros t Wt At Dt R1 R2; cbn [fold_res] in R1, R2.
  { congruence. }
  apply bind_Ok in R1 as [u1 [P1 Q1]]. apply bind_Ok in R2 as [u2 [P2 Q2]].
  assert (P1' : exec (walk_ops o1 src tgt s0 i (walk_fuel s0) (src ++ [])) t = Ok u1)
    by (by rewrite app_nil_r).
  assert (P2' : exec (walk_ops o2 src tgt s0 i (walk_fuel s0) (src ++ [])) t = Ok u2)
    by (by rewrite app_nil_r).
  assert (Hpar : isdir t (parent (tgt ++ [])) = true).
  { rewrite app_nil_r. apply (isdir_prefix_closed t tgt); [done|done|apply parent_prefix]. }
  assert (E : u1 = u2).
  { apply map_eq. intros k. destruct (decide ((tgt ++ []) `prefix_of` k)) as [Hk|Hk].
    - eapply (walk_det o1 o2 s0 i H1 H2 Hn); [..|exact P1'|exact P2'|exact Hk]; done.
    - rewrite (walk_frame o1 s0 i _ [] t u1 Wt Hpar P1' k Hk).
      by rewrite (walk_frame o2 s0 i _ [] t u2 Wt Hpar P2' k Hk). }
  subst u2. apply (IH u1); [| | |exact Q1|exact Q2].
  - by eapply exec_wf.
  - eapply (exec_agree src tgt Hinc s0); [|exact At|exact P1].
    intros o' Ho'. by eapply walk_ops_under.
  - by eapply exec_isdir.
Qed.

End Order.

End Run.

End RunFacts.

(* ================================================================== *)
(** ** Facts about the small filesystems *)
(* ================================================================== *)

Module ExampleFacts.
Import PyStr Fs Replicator RunDefs Examples.

Lemma S_T_incomparable : incomparable ["S"]%string ["T"]%string.
Proof. split; intros [r Hr]; discriminate. Qed.

Lemma sorted_order_ok : listing_ok sorted_order.
Proof. intros p X. reflexivity. Qed.

Lemma rev_order_ok : listing_ok rev_order.
Proof. intros p X. apply reverse_Permutation. Qed.

Lemma sep_free_a_txt : sep_free "a.txt".
Proof. split; apply (bool_decide_unpack _); vm_compute; exact I. Qed.

End ExampleFacts.

(* ================================================================== *)
(** ** The claims *)
(* ================================================================== *)

Module Claims.
Import PyStr Fs Replicator RunDefs Examples FsFacts RunFacts ExampleFacts.

(** *** C1 *)

(** C1 (as stated fails), in two runs.
    - Over [collision_fs] with two copies, the source file [b.txt] in the
      directory [b_copy0_copy1.txt] has content [x02], but its generated
      path [T/b_copy0_copy1.txt/b_copy0.txt] ends up with content [x01].
      The source file [b_copy0.txt] was copied there in pass 1, because
      its own generated path [T/b_copy0_copy1.txt] is a mirrored
      directory.
    - Over [unlistable_fs], [os.walk] skips the directory [S/d] it cannot
      list, so the source file [S/d/b.txt] gets no copy, and the run
      still succeeds. *)
Lemma C1_counterexample :
  (∃ s', replicate sorted_order ["S"] ["T"] 2 collision_fs = Ok s' ∧
    collision_fs !! ["S"; "b_copy0_copy1.txt"; "b.txt"] =
      Some (File true true true [Byte.x02]) ∧
    s' !! (["T"] ++ ["b_copy0_copy1.txt"] ++ [new_filename "b.txt" 0]) =
      Some (File true true true [Byte.x01])) ∧
  (∃ s', replicate sorted_order ["S"] ["T"] 1 unlistable_fs = Ok s' ∧
    unlistable_fs !! ["S"; "d"; "b.txt"] = Some (File true true true [Byte.x02]) ∧
    s' !! (["T"] ++ ["d"] ++ [new_filename "b.txt" 0]) = None).
Proof.
  split.
  - exists (res_state (replicate sorted_order ["S"] ["T"] 2 collision_fs)).
    split; [|split]; vm_compute; reflexivity.
  - exists (res_state (replicate sorted_order ["S"] ["T"] 1 unlistable_fs)).
    split; [|split]; vm_compute; reflexivity.
Qed.

(** C1 (amended): suppose every directory of the source tree can be
    listed, and no generated path names a directory of the initial tree
    (in the target, or in the source where the target tree mirrors it).
    Then a successful run leaves, for every source file [source/D/f] and
    every copy index [i < copies], a file at [target/D/new_filename f i].
    That file has the bytes and the permission bits of the source file. *)
Theorem C1_copy_content {DK : Disk} order src tgt copies s0 s' D f i r w o data :
  incomparable src tgt → listing_ok order → wf s0 → listable_tree s0 src →
  names_ok s0 → no_collision s0 src tgt copies → (i < copies)%nat →
  s0 !! (src ++ D ++ [f]) = Some (File r w o data) →
  replicate order src tgt copies s0 = Ok s' →
  s' !! (tgt ++ D ++ [new_filename f i]) = Some (File r w true data).
Proof.
  intros Hinc Hord Hwf Hlt Hn Hnc Hi Hf Hrun.
  assert (Hfile : is_file s0 (src ++ D ++ [f])) by (exists r, w, o, data; exact Hf).
  pose proof (gen_copied order src tgt Hinc s0 copies s' D f i Hord Hwf Hlt Hn Hnc Hi
                Hfile Hrun) as G.
  rewrite Hf in G. exact G.
Qed.

Lemma C1_witness :
  ∃ s', replicate sorted_order ["S"] ["T"] 2 sample_fs = Ok s' ∧
    s' !! (["T"] ++ ["d"] ++ [new_filename "README" 1]) =
      Some (File true true true [Byte.x02]).
Proof.
  exists (res_state (replicate sorted_order ["S"] ["T"] 2 sample_fs)).
  assert (Hrun : replicate sorted_order ["S"] ["T"] 2 sample_fs =
                 Ok (res_state (replicate sorted_order ["S"] ["T"] 2 sample_fs)))
    by (vm_compute; reflexivity).
  split; [exact Hrun|].
  apply (C1_copy_content sorted_order ["S"] ["T"] 2 sample_fs _ ["d"] "README" 1 true true true
           [Byte.x02]).
  - exact S_T_incomparable.
  - exact sorted_order_ok.
  - apply wfb_wf. vm_compute. reflexivity.
  - apply listable_treeb_ok. vm_compute. reflexivity.
  - apply names_okb_ok. vm_compute. reflexivity.
  - apply no_collisionb_ok. vm_compute. reflexivity.
  - lia.
  - vm_compute. reflexivity.
  - exact Hrun.
Defined.

(** *** C2 *)

(** C2 (as stated fails), in two runs with an empty target tree.
    - Over [collision_fs] (two source files), a successful run with two
      copies leaves three files below the target root, not four.
    - Over [unlistable_fs] (two source files, one in a directory that
      cannot be listed), a successful run with one copy leaves one file
      below the target root, not two. *)
Lemma C2_counterexample :
  (∃ s', replicate sorted_order ["S"] ["T"] 2 collision_fs = Ok s' ∧
    count_files collision_fs ["S"] = 2%nat ∧ count_files collision_fs ["T"] = 0%nat ∧
    count_files s' ["T"] = 3%nat) ∧
  (∃ s', replicate sorted_order ["S"] ["T"] 1 unlistable_fs = Ok s' ∧
    count_files unlistable_fs ["S"] = 2%nat ∧ count_files unlistable_fs ["T"] = 0%nat ∧
    count_files s' ["T"] = 1%nat).
Proof.
  split.
  - exists (res_state (replicate sorted_order ["S"] ["T"] 2 collision_fs)).
    split; [|split; [|split]]; vm_compute; reflexivity.
  - exists (res_state (replicate sorted_order ["S"] ["T"] 1 unlistable_fs)).
    split; [|split; [|split]]; vm_compute; reflexivity.
Qed.

(** C2 (amended): suppose the target tree holds nothing beforehand, every
    directory of the source tree can be listed, and no generated name
    [new_filename f i] is the name of a source directory next to [f].
    Then a successful run with [copies] passes leaves exactly [copies]
    times as many files below the target root as there are below the
    source root. *)
Theorem C2_file_count {DK : Disk} order src tgt copies s0 s' :
  incomparable src tgt → listing_ok order → wf s0 → listable_tree s0 src → names_ok s0 →
  (∀ k, tgt `prefix_of` k → k ≠ tgt → s0 !! k = None) →
  (∀ D f i, (i < copies)%nat → is_file s0 (src ++ D ++ [f]) →
     isdir s0 (src ++ D ++ [new_filename f i]) = false) →
  replicate order src tgt copies s0 = Ok s' →
  count_files s' tgt = (copies * count_files s0 src)%nat.
Proof.
  intros Hinc Hord Hwf Hlt Hn Hempty Hsrc Hrun.
  rewrite (count_run order src tgt Hinc s0 copies s' Hord Hwf Hlt Hn Hempty Hsrc Hrun).
  unfold count_files. lia.
Qed.

Lemma C2_witness :
  ∃ s', replicate sorted_order ["S"] ["T"] 2 sample_fs = Ok s' ∧
    count_files s' ["T"] = (2 * count_files sample_fs ["S"])%nat.
Proof.
  exists (res_state (replicate sorted_order ["S"] ["T"] 2 sample_fs)).
  assert (Hrun : replicate sorted_order ["S"] ["T"] 2 sample_fs =
                 Ok (res_state (replicate sorted_order ["S"] ["T"] 2 sample_fs)))
    by (vm_compute; reflexivity).
  split; [exact Hrun|].
  apply (C2_file_count sorted_order ["S"] ["T"] 2 sample_fs _).
  - exact S_T_incomparable.
  - exact sorted_order_ok.
  - apply wfb_wf. vm_compute. reflexivity.
  - apply listable_treeb_ok. vm_compute. reflexivity.
  - apply names_okb_ok. vm_compute. reflexivity.
  - apply empty_belowb_ok. vm_compute. reflexivity.
  - intros D f i Hi Hf.
    refine (proj2 (no_collisionb_ok sample_fs ["S"] ["T"] 2 _ D f i Hi Hf)).
    vm_compute. reflexivity.
  - exact Hrun.
Defined.

(** *** C3 *)

(** C3 (as stated fails): in the successful run over [collision_fs], the
    generated path of the pair (source file [b_copy0.txt], copy 1) is a
    directory, so that pair has no target file of its own. *)
Lemma C3_counterexample :
  ∃ s', replicate sorted_order ["S"] ["T"] 2 collision_fs = Ok s' ∧
    collision_fs !! ["S"; "b_copy0.txt"] = Some (File true true true [Byte.x01]) ∧
    s' !! (["T"] ++ [] ++ [new_filename "b_copy0.txt" 1]) = Some (Dir true true).
Proof.
  exists (res_state (replicate sorted_order ["S"] ["T"] 2 collision_fs)).
  split; [|split]; vm_compute; reflexivity.
Qed.

(** C3 (amended): generated paths are pairwise distinct: two (source
    file, copy index) pairs with separator-free names that give the same
    path [target/D/new_filename f i] are the same pair. *)
Theorem C3_generated_paths_distinct tgt D1 f1 i1 D2 f2 i2 :
  sep_free f1 → sep_free f2 →
  tgt ++ D1 ++ [new_filename f1 i1] = tgt ++ D2 ++ [new_filename f2 i2] →
  D1 = D2 ∧ f1 = f2 ∧ i1 = i2.
Proof.
  intros Hs1 Hs2 E. apply app_inv_head in E. apply app_inj_tail in E as [-> E].
  destruct (PyStrFacts.new_filename_inj f1 f2 i1 i2 Hs1 Hs2 E).
  auto.
Qed.

Lemma C3_witness : ["d"] = ["d"] ∧ "a.txt" = "a.txt" ∧ 1%nat = 1%nat.
Proof.
  apply (C3_generated_paths_distinct ["T"] ["d"] "a.txt" 1 ["d"] "a.txt" 1).
  - exact sep_free_a_txt.
  - exact sep_free_a_txt.
  - reflexivity.
Defined.

(** *** C4 *)

(** C4 (as stated fails), in two runs.
    - A directory [T/old] that the target tree held before the run is
      still a directory after a successful run, while the source tree
      has no directory [S/old].
    - The source directory [S/d] of [unlistable_fs] cannot be listed:
      [os.walk] skips it, and a successful run leaves no directory
      [T/d]. *)
Lemma C4_counterexample :
  (∃ s', replicate sorted_order ["S"] ["T"] 1 prior_dir_fs = Ok s' ∧
    isdir s' (["T"] ++ ["old"]) = true ∧ isdir prior_dir_fs (["S"] ++ ["old"]) = false) ∧
  (∃ s', replicate sorted_order ["S"] ["T"] 1 unlistable_fs = Ok s' ∧
    isdir s' (["T"] ++ ["d"]) = false ∧ isdir unlistable_fs (["S"] ++ ["d"]) = true).
Proof.
  split.
  - exists (res_state (replicate sorted_order ["S"] ["T"] 1 prior_dir_fs)).
    split; [|split]; vm_compute; reflexivity.
  - exists (res_state (replicate sorted_order ["S"] ["T"] 1 unlistable_fs)).
    split; [|split]; vm_compute; reflexivity.
Qed.

(** C4 (amended): suppose every directory of the source tree can be
    listed.  After a successful run with at least one copy, the relative
    path [D] is a directory below the target root exactly when it is the
    target root itself, a directory below the source root, or a
    directory the target tree already held.  The copy count does not
    enter.  With a target tree that held nothing below its root, the
    target directories are exactly the source directories. *)
Theorem C4_target_dirs {DK : Disk} order src tgt copies s0 s' D :
  incomparable src tgt → listing_ok order → wf s0 → listable_tree s0 src →
  (0 < copies)%nat →
  replicate order src tgt copies s0 = Ok s' →
  (isdir s' (tgt ++ D) = true ↔
   D = [] ∨ isdir s0 (src ++ D) = true ∨ isdir s0 (tgt ++ D) = true).
Proof.
  intros Hinc Hord Hwf Hlt Hc Hrun.
  pose proof (replicate_inv order src tgt Hinc s0 copies Hord) as (_ & Hdir & _).
  rewrite Hrun in Hdir. simpl in Hdir.
  split.
  - intros Hd. destruct (Hdir _ Hd) as [H0|[Hm|[_ (D' & HD' & Hm)]]].
    + by right; right.
    + left. apply prefix_length in Hm. rewrite length_app in Hm.
      destruct D; [done|simpl in Hm; lia].
    + right; left. apply prefix_app_inv in Hm.
      apply (isdir_prefix_closed s0 (src ++ D')); [done|done|].
      by apply prefix_app.
  - intros [->|[Hs|Ht]].
    + apply (mirrored_present order src tgt Hinc s0 copies s' _ Hord Hwf Hlt Hrun).
      left. by rewrite app_nil_r.
    + apply (mirrored_present order src tgt Hinc s0 copies s' _ Hord Hwf Hlt Hrun).
      right. split; [done|]. by exists D.
    + rewrite (replicate_eq order src tgt Hinc) in Hrun.
      exact (exec_isdir _ _ _ _ Hrun Ht).
Qed.

Lemma C4_witness :
  ∃ s', replicate sorted_order ["S"] ["T"] 1 prior_dir_fs = Ok s' ∧
    (isdir s' (["T"] ++ ["old"]) = true ↔
     ["old"] = [] ∨ isdir prior_dir_fs (["S"] ++ ["old"]) = true ∨
     isdir prior_dir_fs (["T"] ++ ["old"]) = true).
Proof.
  exists (res_state (replicate sorted_order ["S"] ["T"] 1 prior_dir_fs)).
  assert (Hrun : replicate sorted_order ["S"] ["T"] 1 prior_dir_fs =
                 Ok (res_state (replicate sorted_order ["S"] ["T"] 1 prior_dir_fs)))
    by (vm_compute; reflexivity).
  split; [exact Hrun|].
  apply (C4_target_dirs sorted_order ["S"] ["T"] 1 prior_dir_fs _ ["old"]).
  - exact S_T_incomparable.
  - exact sorted_order_ok.
  - apply wfb_wf. vm_compute. reflexivity.
  - apply listable_treeb_ok. vm_compute. reflexivity.
  - lia.
  - exact Hrun.
Defined.

(** *** C5 *)

(** C5: a name that [os.path.splitext] gives no extension (such as
    [README]) gets [_copy<i>] appended and nothing after it. *)
Theorem C5_no_extension_name f i :
  (splitext f).2 = EmptyString →
  new_filename f i = (f +:+ "_copy" +:+ pretty i)%string.
Proof.
  intros H. unfold new_filename. rewrite (PyStrFacts.splitext_no_ext f H).
  by rewrite !PyStrFacts.string_app_empty.
Qed.

Lemma C5_witness : new_filename "README" 0 = "README_copy0"%string.
Proof.
  rewrite (C5_no_extension_name "README" 0) by (vm_compute; reflexivity).
  vm_compute. reflexivity.
Defined.

(** *** C6 *)



(** *** C7 *)

(** C7: a run that raises stops at its first failing call.  The calls
    before it completed, the calls after it never run, and the failing
    call removes no entry.  It changes nothing but some new directories
    ([os.makedirs]), or the one file [shutil.copy] had opened for
    writing: [copyfile] may have filled the disk part-way through the
    data, or [copymode] may have been refused after the data was
    written. *)
Theorem C7_error_stops_run {DK : Disk} order src tgt copies s0 e s' :
  incomparable src tgt →
  replicate order src tgt copies s0 = Err e s' →
  ∃ pre o post t,
    replicate_ops order src tgt copies s0 = pre ++ o :: post ∧
    exec pre s0 = Ok t ∧ step o t = Err e s' ∧
    (∀ k, is_Some (t !! k) → is_Some (s' !! k)) ∧
    (∀ k, s' !! k ≠ t !! k →
       (t !! k = None ∧ s' !! k = Some (Dir true true)) ∨
       (∃ a b, o = OCopy a b ∧ k = copy_target t a b ∧ isdir t k = false ∧ is_file s' k)).
Proof.
  intros Hinc Hrun. rewrite (replicate_eq order src tgt Hinc) in Hrun.
  destruct (exec_Err_split _ _ _ _ Hrun) as (pre & o & post & t & Hl & Hpre & Ho).
  exists pre, o, post, t. do 3 (split; [done|]).
  assert (Hfr : ∀ k, s' !! k = t !! k ∨
                  (t !! k = None ∧ s' !! k = Some (Dir true true)) ∨
                  (∃ a b, o = OCopy a b ∧ k = copy_target t a b ∧ isdir t k = false ∧
                          is_file s' k)).
  { destruct o as [p|a b]; simpl in Ho.
    - pose proof (makedirs_frame p t) as H. rewrite Ho in H. simpl in H.
      intros k. destruct (H k) as [E|(_ & E1 & E2)]; [by left|by right; left].
    - apply copy_Err in Ho as [->|(_ & _ & Hnd & _ & r & w & o & data & ->)];
        intros k; [by left|].
      destruct (decide (copy_target t a b = k)) as [<-|Hne].
      + right; right. exists a, b. split_and!; try done.
        exists r, w, o, data. by rewrite lookup_insert_eq.
      + left. by rewrite lookup_insert_ne. }
  split.
  - intros k [n Hk]. destruct (Hfr k) as [E|[[E _]|(a & b & _ & _ & _ & r & w & o' & d & E)]].
    + rewrite E, Hk. by eexists.
    + congruence.
    + rewrite E. by eexists.
  - intros k Hne. destruct (Hfr k) as [E|[H|H]]; [contradiction|by left|by right].
Qed.

(** On a disk with room for three bytes, the run over [sample_fs] copies
    [a.txt] and then fills the disk on [README]. *)
Lemma C7_witness :
  ∃ pre o post t,
    replicate_ops sorted_order ["S"] ["T"] 1 sample_fs = pre ++ o :: post ∧
    @exec small_disk pre sample_fs = Ok t ∧
    @step small_disk o t = Err OSError_ENOSPC
      (res_state (@replicate sorted_order small_disk ["S"] ["T"] 1 sample_fs)) ∧
    (∀ k, is_Some (t !! k) →
       is_Some (res_state (@replicate sorted_order small_disk ["S"] ["T"] 1 sample_fs) !! k)) ∧
    (∀ k, res_state (@replicate sorted_order small_disk ["S"] ["T"] 1 sample_fs) !! k ≠
          t !! k →
       (t !! k = None ∧
        res_state (@replicate sorted_order small_disk ["S"] ["T"] 1 sample_fs) !! k =
          Some (Dir true true)) ∨
       (∃ a b, o = OCopy a b ∧ k = copy_target t a b ∧ isdir t k = false ∧
          is_file (res_state (@replicate sorted_order small_disk ["S"] ["T"] 1 sample_fs)) k)).
Proof.
  apply (@C7_error_stops_run small_disk sorted_order ["S"] ["T"] 1 sample_fs OSError_ENOSPC).
  - exact S_T_incomparable.
  - vm_compute. reflexivity.
Defined.

(** *** C8 *)

(** C8: [os.makedirs(p, exist_ok=True)] on a path that is already a
    directory succeeds and leaves the filesystem as it is. *)
Theorem C8_makedirs_existing s p :
  wf s → isdir s p = true → makedirs p s = Ok s.
Proof. apply makedirs_exist_ok. Qed.

Lemma C8_witness : makedirs (["T"] ++ ["old"]) prior_dir_fs = Ok prior_dir_fs.
Proof.
  apply C8_makedirs_existing.
  - apply wfb_wf. vm_compute. reflexivity.
  - vm_compute. reflexivity.
Defined.

(** *** C9 *)

(** C9 (as stated fails): the target tree of [into_dir_fs] holds a
    directory at the generated path [T/a_copy0.txt] with a file [a.txt]
    in it.  [a.txt] is no generated name, yet [shutil.copy] overwrites
    it. *)
Lemma C9_counterexample :
  ∃ s', replicate sorted_order ["S"] ["T"] 1 into_dir_fs = Ok s' ∧
    into_dir_fs !! ["T"; "a_copy0.txt"; "a.txt"] = Some (File true true true [Byte.x02]) ∧
    s' !! ["T"; "a_copy0.txt"; "a.txt"] = Some (File true true true [Byte.x01]) ∧
    (∀ f i, new_filename f i ≠ "a.txt").
Proof.
  exists (res_state (replicate sorted_order ["S"] ["T"] 1 into_dir_fs)).
  split; [|split; [|split]]; [vm_compute; reflexivity ..|].
  intros f i E. apply (f_equal chars) in E. rewrite PyStrFacts.new_filename_chars in E.
  assert (Hin : "_"%char ∈ chars "a.txt").
  { rewrite <- E, PyStrFacts.copy_tag_chars.
    apply elem_of_app. right. apply elem_of_app. left. left. }
  apply list_elem_of_In in Hin. vm_compute in Hin.
  repeat destruct Hin as [Hin|Hin]; discriminate || contradiction.
Qed.

(** C9 (amended): a run, successful or not, leaves every path below the
    source root as it was.  Every other path it changes is one of three
    kinds:
    - a new directory that the target tree mirrors or that lies on the
      target root's path;
    - a generated path [target/D/new_filename f i] (any node there, a
      pre-existing file included, may be overwritten);
    - when that generated path is a directory, the path inside it named
      like the source file. *)
Theorem C9_changes {DK : Disk} order src tgt copies s0 :
  incomparable src tgt → listing_ok order →
  let s' := res_state (replicate order src tgt copies s0) in
  (∀ k, src `prefix_of` k → s' !! k = s0 !! k) ∧
  (∀ k, s' !! k = s0 !! k ∨
        (s0 !! k = None ∧ s' !! k = Some (Dir true true) ∧ mirrored_dir s0 src tgt copies k) ∨
        generated s0 src tgt copies k ∨ into_generated s0 src tgt copies k).
Proof.
  intros Hinc Hord s'.
  destruct (replicate_inv order src tgt Hinc s0 copies Hord) as (Ha & _ & Hc).
  exact (conj Ha Hc).
Qed.

Lemma C9_witness :
  let s' := res_state (replicate sorted_order ["S"] ["T"] 1 into_dir_fs) in
  (∀ k, ["S"] `prefix_of` k → s' !! k = into_dir_fs !! k) ∧
  (∀ k, s' !! k = into_dir_fs !! k ∨
        (into_dir_fs !! k = None ∧ s' !! k = Some (Dir true true) ∧
         mirrored_dir into_dir_fs ["S"] ["T"] 1 k) ∨
        generated into_dir_fs ["S"] ["T"] 1 k ∨ into_generated into_dir_fs ["S"] ["T"] 1 k).
Proof.
  apply C9_changes.
  - exact S_T_incomparable.
  - exact sorted_order_ok.
Defined.

(** *** C10 *)

(** C10 (as stated fails): over [unreadable_fs] the run raises
    [PermissionError] under both listing orders.  Listing [a] first
    leaves the copy of [S/a/x.txt] behind; listing [b] first fails before
    any file is written. *)
Lemma C10_counterexample :
  listing_ok rev_order ∧
  ∃ s1 s2,
    replicate sorted_order ["S"] ["T"] 1 unreadable_fs = Err PermissionError s1 ∧
    replicate rev_order ["S"] ["T"] 1 unreadable_fs = Err PermissionError s2 ∧
    s1 !! ["T"; "a"; "x_copy0.txt"] = Some (File true true true [Byte.x01]) ∧
    s2 !! ["T"; "a"; "x_copy0.txt"] = None.
Proof.
  split; [exact rev_order_ok|].
  exists (res_state (replicate sorted_order ["S"] ["T"] 1 unreadable_fs)),
         (res_state (replicate rev_order ["S"] ["T"] 1 unreadable_fs)).
  split; [|split; [|split]]; vm_compute; reflexivity.
Qed.

(** C10 (amended): two runs that both succeed leave the same filesystem,
    whatever the order in which [os.scandir] lists the directories.
    Collisions of generated paths with directories do not change this:
    each copy and each subdirectory walk writes a region of the target
    tree of its own, and the body of a directory runs before its
    subdirectories under every order. *)
Theorem C10_order_independent {DK : Disk} o1 o2 src tgt copies s0 s1 s2 :
  incomparable src tgt → listing_ok o1 → listing_ok o2 →
  wf s0 → names_ok s0 →
  replicate o1 src tgt copies s0 = Ok s1 → replicate o2 src tgt copies s0 = Ok s2 →
  s1 = s2.
Proof.
  intros Hinc H1 H2 Hwf Hn R1 R2.
  exact (replicate_order_indep src tgt Hinc o1 o2 copies s0 s1 s2 H1 H2 Hwf Hn R1 R2).
Qed.

(** The two orders agree on [collision_fs], where a generated path is a
    mirrored directory. *)
Lemma C10_witness :
  ∃ s1 s2,
    replicate sorted_order ["S"] ["T"] 2 collision_fs = Ok s1 ∧
    replicate rev_order ["S"] ["T"] 2 collision_fs = Ok s2 ∧ s1 = s2.
Proof.
  exists (res_state (replicate sorted_order ["S"] ["T"] 2 collision_fs)),
         (res_state (replicate rev_order ["S"] ["T"] 2 collision_fs)).
  assert (R1 : replicate sorted_order ["S"] ["T"] 2 collision_fs =
               Ok (res_state (replicate sorted_order ["S"] ["T"] 2 collision_fs)))
    by (vm_compute; reflexivity).
  assert (R2 : replicate rev_order ["S"] ["T"] 2 collision_fs =
               Ok (res_state (replicate rev_order ["S"] ["T"] 2 collision_fs)))
    by (vm_compute; reflexivity).
  split; [exact R1|]. split; [exact R2|].
  apply (C10_order_independent sorted_order rev_order ["S"] ["T"] 2 collision_fs).
  - exact S_T_incomparable.
  - exact sorted_order_ok.
  - exact rev_order_ok.
  - apply wfb_wf. vm_compute. reflexivity.
  - apply names_okb_ok. vm_compute. reflexivity.
  - exact R1.
  - exact R2.
Defined.

End Claims.

(* ================================================================== *)
(** ** Further properties of the code *)
(* ================================================================== *)

Module Extras.
Import PyStr Fs Replicator RunDefs Examples PyStrFacts FsFacts RunFacts ExampleFacts.

(** *** [os.makedirs(p, exist_ok=True)] *)

(** Whether it succeeds or raises, [os.makedirs(p)] never changes or
    removes an existing entry: it only adds writable directories at
    prefixes of [p]. *)
Theorem makedirs_only_adds p s k :
  res_state (makedirs p s) !! k = s !! k ∨
  (k `prefix_of` p ∧ s !! k = None ∧ res_state (makedirs p s) !! k = Some (Dir true true)).
Proof. apply makedirs_frame. Qed.

(** After a successful [os.makedirs(p)], [p] and all its ancestors are
    directories. *)
Theorem makedirs_ok_prefixes p s s' q :
  wf s → makedirs p s = Ok s' → q `prefix_of` p → isdir s' q = true.
Proof.
  intros Hwf H Hq. pose proof (makedirs_wf p s Hwf) as W. rewrite H in W.
  exact (isdir_prefix_closed s' p q W (makedirs_isdir p s s' H) Hq).
Qed.

Lemma makedirs_ok_prefixes_witness :
  isdir (res_state (makedirs ["a"; "b"] ∅)) ["a"] = true.
Proof.
  apply (makedirs_ok_prefixes ["a"; "b"] ∅ _ ["a"]).
  - apply wfb_wf. vm_compute. reflexivity.
  - vm_compute. reflexivity.
  - by exists ["b"].
Defined.

(** [exist_ok=True] covers directories only: [os.makedirs(p)] raises when
    [p] or one of its ancestors is a regular file. *)
Theorem makedirs_file_prefix_fails p s q r w o d :
  wf s → s !! q = Some (File r w o d) → q `prefix_of` p →
  ∃ e s', makedirs p s = Err e s'.
Proof.
  intros Hwf Hq Hqp. destruct (makedirs p s) as [s'|e s'] eqn:H; [|eauto].
  exfalso.
  pose proof (makedirs_wf p s Hwf) as W. rewrite H in W. simpl in W.
  pose proof (isdir_prefix_closed s' p q W (makedirs_isdir p s s' H) Hqp) as Hd.
  pose proof (makedirs_frame p s) as Fr. rewrite H in Fr. simpl in Fr.
  destruct (Fr q) as [E|(_ & E & _)]; [|congruence].
  destruct (Hwf _ _ Hq) as [Hqn _]. unfold isdir in Hd.
  rewrite stat_cons_ne in Hd by done. rewrite E, Hq in Hd. discriminate.
Qed.

Lemma makedirs_file_prefix_fails_witness :
  ∃ e s', makedirs ["a"; "b"] {[ ["a"] := File true true true [] ]} = Err e s'.
Proof.
  apply (makedirs_file_prefix_fails _ _ ["a"] true true true []).
  - apply wfb_wf. vm_compute. reflexivity.
  - reflexivity.
  - by exists ["b"].
Defined.



(** *** [shutil.copy(src, dst)] *)

(** A successful [shutil.copy] reads a readable regular file and changes
    one entry only: [dst], or [dst/basename(src)] when [dst] is a
    directory.  That entry then holds the source's bytes and permission
    bits, and belongs to the running user. *)
Theorem copy_ok_writes {DK : Disk} src dst s s' :
  copy src dst s = Ok s' →
  ∃ w o data, s !! src = Some (File true w o data) ∧
    s' = <[(if isdir s dst then dst ++ [basename src] else dst) := File true w true data]> s.
Proof.
  intros Hc. destruct (copy_Ok src dst s s' Hc) as (w & o & data & Hs & _ & _ & _ & _ & _ & ->).
  by exists w, o, data.
Qed.

Lemma copy_ok_writes_witness :
  ∃ w o data, sample_fs !! ["S"; "a.txt"] = Some (File true w o data) ∧
    res_state (copy ["S"; "a.txt"] ["S"; "d"] sample_fs) =
    <[(if isdir sample_fs ["S"; "d"] then ["S"; "d"] ++ [basename ["S"; "a.txt"]]
       else ["S"; "d"]) := File true w true data]> sample_fs.
Proof.
  apply copy_ok_writes. vm_compute. reflexivity.
Defined.

(** *** [os.path.splitext] and the new file name *)

(** For a name without separators, [name + ext] is the name again, and
    [ext] is empty or a dot followed by characters other than dots. *)
Theorem splitext_name_ext f :
  sep_free f →
  ((splitext f).1 +:+ (splitext f).2)%string = f ∧
  ((splitext f).2 = EmptyString ∨
   ∃ e', chars (splitext f).2 = "."%char :: e' ∧ ("."%char ∉ e')).
Proof.
  intros Hs. pose proof (splitext_spec f Hs) as Sp.
  destruct (splitext f) as [a e]. simpl. destruct Sp as [Hf Hc]. split.
  - apply chars_inj. by rewrite chars_app.
  - destruct Hc as [[He _]|He]; [left|by right].
    apply chars_inj. by rewrite He.
Qed.

Lemma splitext_name_ext_witness :
  ((splitext "data.tar.gz").1 +:+ (splitext "data.tar.gz").2)%string = "data.tar.gz" ∧
  ((splitext "data.tar.gz").2 = EmptyString ∨
   ∃ e', chars (splitext "data.tar.gz").2 = "."%char :: e' ∧ ("."%char ∉ e')).
Proof.
  apply splitext_name_ext.
  split; apply (bool_decide_unpack _); vm_compute; exact I.
Defined.

(** The copy keeps the extension: [os.path.splitext] of
    [f"{name}_copy{i}{ext}"] gives back [name + "_copy" + str(i)] and the
    same [ext]. *)
Theorem new_filename_splitext f i :
  sep_free f →
  splitext (new_filename f i) = (((splitext f).1 +:+ "_copy" +:+ pretty i)%string, (splitext f).2).
Proof.
  intros Hs. pose proof (splitext_spec f Hs) as Sp.
  pose proof (new_filename_chars f i) as Hc.
  destruct (pretty_digits i) as [_ Hd].
  destruct Hs as [Hs1 Hs2].
  destruct (splitext f) as [a e]. cbn [fst snd] in *. destruct Sp as [Hf Hcase].
  assert (Hsn : sep_free (new_filename f i)).
  { assert (Hgen : ∀ c, c ∉ chars f → ¬ is_digit c → c ∉ chars "_copy" →
                        c ∉ chars (new_filename f i)).
    { intros c Hcf Hcd Hcc. rewrite Hc, !elem_of_app. rewrite Hf, elem_of_app in Hcf.
      intros [Hin|[Hin|[Hin|Hin]]]; [tauto|tauto| |tauto].
      exact (not_digit_notin _ _ Hd Hcd Hin). }
    split; apply Hgen; try done; try apply bslash_not_digit; try apply slash_not_digit;
      rewrite copy_tag_chars, list_elem_of_In; simpl; intuition discriminate. }
  assert (Hnodot : "."%char ∉ chars "_copy" ++ chars (pretty i)).
  { rewrite elem_of_app. intros [Hin|Hin].
    - rewrite copy_tag_chars in Hin. rewrite list_elem_of_In in Hin. simpl in Hin.
      intuition discriminate.
    - exact (not_digit_notin _ _ Hd dot_not_digit Hin). }
  destruct Hcase as [[He [n [r [Hr Hnr]]]]|[e' [He Hne']]].
  - assert (Ee : e = EmptyString) by (by apply chars_inj).
    subst e. rewrite app_nil_r in Hf. rewrite (splitext_dots (new_filename f i) Hsn).
    + f_equal. apply chars_inj. rewrite Hc, !chars_app. simpl. by rewrite app_nil_r.
    + intros j d. rewrite Hc. change (chars EmptyString) with (@nil ascii).
      rewrite app_nil_r, <- Hf, Hr, <- app_assoc.
      apply leading_dots_lookup; [done|exact Hnodot].
  - rewrite (splitext_split (new_filename f i) (chars a ++ chars "_copy" ++ chars (pretty i)) e' Hsn).
    + f_equal; apply chars_inj; rewrite chars_of_list; [by rewrite !chars_app|done].
    + rewrite Hc, He. by rewrite <- !app_assoc.
    + done.
    + exists (length (chars a)). split; [rewrite !length_app, copy_tag_chars; simpl; lia|].
      rewrite lookup_app_r by lia. rewrite Nat.sub_diag, copy_tag_chars. simpl. discriminate.
Qed.

Lemma new_filename_splitext_witness :
  splitext (new_filename "data.tar.gz" 7) =
  (((splitext "data.tar.gz").1 +:+ "_copy" +:+ pretty 7)%string, (splitext "data.tar.gz").2).
Proof.
  apply new_filename_splitext. split; apply (bool_decide_unpack _); vm_compute; exact I.
Defined.

(** The calls of a run (lines 8-25), when every directory of the source
    tree can be listed: the run is the sequence of calls [replicate_ops]
    lists.  It calls [os.makedirs] on [target_dir] and, when
    [copies >= 1], on [target_dir/D] for every directory [D] of the
    source tree.  It calls [shutil.copy] from every file
    [source_dir/D/f] of the source tree to
    [target_dir/D/new_filename f i], for each pass [i < copies].  It
    makes no other call. *)
Theorem run_calls {DK : Disk} order src tgt copies s0 :
  incomparable src tgt → listing_ok order → wf s0 → listable_tree s0 src →
  replicate order src tgt copies s0 = exec (replicate_ops order src tgt copies s0) s0 ∧
  (∀ p, OMakedirs p ∈ replicate_ops order src tgt copies s0 ↔
        p = tgt ∨ ((0 < copies)%nat ∧ ∃ D, isdir s0 (src ++ D) = true ∧ p = tgt ++ D)) ∧
  (∀ a b, OCopy a b ∈ replicate_ops order src tgt copies s0 ↔
        ∃ D f i, (i < copies)%nat ∧ is_file s0 (src ++ D ++ [f]) ∧
          a = src ++ D ++ [f] ∧ b = tgt ++ D ++ [new_filename f i]).
Proof.
  intros Hinc Hord Hwf Hlt. split; [by eapply replicate_eq|]. split.
  - intros p. split.
    + intros Hp. exact (replicate_ops_ok order src tgt Hinc s0 copies (OMakedirs p) Hord Hp).
    + intros [->|[Hc [D [HD ->]]]].
      * unfold replicate_ops. apply elem_of_cons. by left.
      * eapply (mkdir_in_ops order src tgt); eauto.
  - intros a b. split.
    + intros Hab. exact (replicate_ops_ok order src tgt Hinc s0 copies (OCopy a b) Hord Hab).
    + intros [D [f [i [Hi [Hf [-> ->]]]]]].
      eapply (copy_in_ops order src tgt); eauto.
Qed.

Lemma run_calls_witness :
  replicate sorted_order ["S"] ["T"] 2 sample_fs =
    exec (replicate_ops sorted_order ["S"] ["T"] 2 sample_fs) sample_fs ∧
  (∀ p, OMakedirs p ∈ replicate_ops sorted_order ["S"] ["T"] 2 sample_fs ↔
        p = ["T"] ∨ ((0 < 2)%nat ∧ ∃ D, isdir sample_fs (["S"] ++ D) = true ∧ p = ["T"] ++ D)) ∧
  (∀ a b, OCopy a b ∈ replicate_ops sorted_order ["S"] ["T"] 2 sample_fs ↔
        ∃ D f i, (i < 2)%nat ∧ is_file sample_fs (["S"] ++ D ++ [f]) ∧
          a = ["S"] ++ D ++ [f] ∧ b = ["T"] ++ D ++ [new_filename f i]).
Proof.
  apply run_calls.
  - exact S_T_incomparable.
  - exact sorted_order_ok.
  - apply wfb_wf. vm_compute. reflexivity.
  - apply listable_treeb_ok. vm_compute. reflexivity.
Defined.

(** *** Running the script a second time *)

Section Rerun.
Context {DK : Disk}.

(** The bytes the files take: only the files count. *)
Lemma usage_insert s k n : s !! k = None → usage (<[k := n]> s) = (size n + usage s)%nat.
Proof.
  intros Hk. unfold usage. rewrite map_fold_insert_L; [done| |done].
  intros. lia.
Qed.

Lemma usage_insert_delete s k n : usage (<[k := n]> s) = (size n + usage (delete k s))%nat.
Proof. rewrite <- insert_delete_eq. apply usage_insert. apply lookup_delete_eq. Qed.

Lemma usage_lookup s k n : s !! k = Some n → usage s = (size n + usage (delete k s))%nat.
Proof.
  intros Hk. unfold usage. rewrite (map_fold_delete_L _ _ k n s); [done| |done].
  intros. lia.
Qed.

Lemma usage_files s : usage s = usage (filter (λ kv : path * node, is_file_node kv.2 = true) s).
Proof.
  induction s as [|k n s Hk IH] using map_ind.
  - by rewrite map_filter_empty.
  - rewrite map_filter_insert, usage_insert by done. case_decide as Hf.
    + rewrite usage_insert; [by rewrite IH|]. apply map_lookup_filter_None_2. by left.
    + rewrite delete_id by done. destruct n as [r w|r w o d]; [|done]. simpl. exact IH.
Qed.

Lemma usage_add_dirs s s' :
  (∀ k, s' !! k = s !! k ∨ (s !! k = None ∧ ∃ r w, s' !! k = Some (Dir r w))) →
  usage s' = usage s.
Proof.
  intros H. rewrite (usage_files s'), (usage_files s). f_equal. apply map_eq. intros k.
  rewrite !map_lookup_filter. destruct (H k) as [->|[-> [r [w ->]]]]; done.
Qed.

Lemma makedirs_usage p s : usage (res_state (makedirs p s)) = usage s.
Proof.
  apply usage_add_dirs. intros k. destruct (makedirs_frame p s k) as [E|(_ & E1 & E2)].
  - by left.
  - right. split; [done|]. by exists true, true.
Qed.

Lemma usage_delete_le s k : (usage (delete k s) ≤ usage s)%nat.
Proof.
  destruct (s !! k) as [n|] eqn:Hk.
  - rewrite (usage_lookup s k n Hk). lia.
  - by rewrite delete_id.
Qed.

(** A write that succeeds leaves the files fitting on the disk when they
    did before, or when it wrote some bytes. *)
Lemma write_file_usage dst r w o data s s' :
  write_file dst r w o data s = Ok s' →
  (usage s ≤ capacity)%nat ∨ data ≠ [] → (usage s' ≤ capacity)%nat.
Proof.
  unfold write_file. case_decide as Hle; [|discriminate]. intros [= <-] Hor.
  rewrite usage_insert_delete in Hle |- *. simpl in Hle |- *.
  pose proof (usage_delete_le s dst).
  destruct Hor as [Hu|Hd]; [lia|]. destruct data; [done|simpl in *; lia].
Qed.

Lemma copyfile_usage a b s s' :
  copyfile a b s = Ok s' →
  (usage s ≤ capacity)%nat ∨ (∃ r w o d, stat s a = Some (File r w o d) ∧ d ≠ []) →
  (usage s' ≤ capacity)%nat.
Proof.
  unfold copyfile. intros H Hor.
  repeat (case_match; try discriminate); (eapply write_file_usage; [eassumption|]);
    (destruct Hor as [Hu|(r' & w' & o' & d' & Hs & Hd)]; [by left|right]);
    intros ->; congruence.
Qed.

Lemma copymode_usage a b s s' : copymode a b s = Ok s' → usage s' = usage s.
Proof.
  unfold copymode. intros H. repeat (case_match; try discriminate); injection H as <-;
    try done.
  match goal with
  | Hb : stat s b = Some (File _ _ _ _) |- _ =>
      destruct b as [|x b]; [discriminate|];
      by rewrite usage_insert_delete, (usage_lookup s _ _ Hb)
  end.
Qed.

Lemma copy_usage a b s s' :
  copy a b s = Ok s' →
  (usage s ≤ capacity)%nat ∨ (∃ r w o d, stat s a = Some (File r w o d) ∧ d ≠ []) →
  (usage s' ≤ capacity)%nat.
Proof.
  unfold copy. intros H Hor. apply bind_Ok in H as [s1 [H1 H2]].
  rewrite (copymode_usage _ _ _ _ H2). by eapply copyfile_usage.
Qed.

Lemma step_usage o s s' :
  step o s = Ok s' → (usage s ≤ capacity)%nat → (usage s' ≤ capacity)%nat.
Proof.
  destruct o as [p|a b]; cbn [step]; intros H Hu.
  - pose proof (makedirs_usage p s) as E. rewrite H in E. simpl in E. lia.
  - eapply copy_usage; [exact H|]. by left.
Qed.

Lemma exec_usage l s s' :
  exec l s = Ok s' → (usage s ≤ capacity)%nat → (usage s' ≤ capacity)%nat.
Proof.
  revert s. induction l as [|o l IH]; intros s H Hu.
  - by injection H as <-.
  - rewrite exec_cons in H. apply bind_Ok in H as [t [Ht H]].
    apply (IH t H). by eapply step_usage.
Qed.

Lemma rerun_walk_fuel (order : path → gset string → list string) (src tgt : path)
    (s : fs) (i : nat) : ∀ (fuel1 fuel2 : nat) (top : path),
  top ≠ [] →
  (∀ k n, s !! k = Some n → top `prefix_of` k → (length k < length top + fuel1)%nat) →
  (∀ k n, s !! k = Some n → top `prefix_of` k → (length k < length top + fuel2)%nat) →
  walk_ops order src tgt s i fuel1 top = walk_ops order src tgt s i fuel2 top.
Proof.
  induction fuel1 as [|f1 IH]; intros [|f2] top Htop H1 H2; cbn [walk_ops]; [done| | |].
  - destruct (listable s top) eqn:Hd; [|done]. exfalso.
    destruct (isdir_ne_lookup s top Htop (listable_isdir s top Hd)) as [r [w Hw]].
    specialize (H1 _ _ Hw (reflexivity _)). lia.
  - destruct (listable s top) eqn:Hd; [|done]. exfalso.
    destruct (isdir_ne_lookup s top Htop (listable_isdir s top Hd)) as [r [w Hw]].
    specialize (H2 _ _ Hw (reflexivity _)). lia.
  - destruct (listable s top); [|done]. f_equal. apply flat_map_ext. intros d.
    apply IH; [by destruct top| |]; intros k n Hk Hp;
      rewrite length_app; simpl.
    + specialize (H1 k n Hk (prefix_app_l _ _ _ Hp)). lia.
    + specialize (H2 k n Hk (prefix_app_l _ _ _ Hp)). lia.
Qed.

Lemma rerun_walk_agree (order : path → gset string → list string) src tgt s0 t i :
  incomparable src tgt → agree_src src s0 t → ∀ fuel top, src `prefix_of` top →
  walk_ops order src tgt t i fuel top = walk_ops order src tgt s0 i fuel top.
Proof.
  intros Hinc Hag fuel. induction fuel as [|fuel IH]; intros top Hp; cbn [walk_ops];
    [done|].
  rewrite (agree_listable src tgt Hinc s0 t top Hag Hp).
  destruct (listable s0 top); [|done].
  rewrite (agree_children src s0 t top Hag Hp).
  set (names := order top (children s0 top)).
  assert (Hf : ∀ b, filter (λ n, isdir t (top ++ [n]) = b) names =
                    filter (λ n, isdir s0 (top ++ [n]) = b) names).
  { intros b. apply list_filter_iff. intros n.
    rewrite (agree_isdir src tgt Hinc s0 t); [done|done|by apply prefix_app_r]. }
  rewrite !Hf. f_equal. apply flat_map_ext. intros d. apply IH.
  by apply prefix_app_r.
Qed.

(** A filesystem that agrees with [s0] on the source tree gives the same
    list of calls. *)
Lemma rerun_ops_agree (order : path → gset string → list string) src tgt copies s0 t :
  incomparable src tgt → agree_src src s0 t →
  replicate_ops order src tgt copies t = replicate_ops order src tgt copies s0.
Proof.
  intros Hinc Hag. unfold replicate_ops. f_equal. apply flat_map_ext. intros i.
  rewrite (rerun_walk_agree order src tgt s0 t i Hinc Hag); [|done].
  apply rerun_walk_fuel; [pose proof (src_ne src tgt Hinc); done| |];
    intros k n Hk Hp.
  - rewrite <- (Hag k Hp) in Hk. apply fuel_bound in Hk. lia.
  - apply fuel_bound in Hk. lia.
Qed.

Lemma exec_all_ok l s : (∀ o, o ∈ l → step o s = Ok s) → exec l s = Ok s.
Proof.
  induction l as [|o l IH]; intros Hall; [done|].
  rewrite exec_cons, (Hall o) by by left. apply IH.
  intros o' Ho'. apply Hall. by right.
Qed.

Lemma exec_stuck l s e :
  (∀ o, o ∈ l → step o s = Ok s ∨ step o s = Err e s) →
  (∃ o, o ∈ l ∧ step o s = Err e s) → exec l s = Err e s.
Proof.
  induction l as [|o l IH]; intros Hall [o' [Hin Herr]]; [set_solver|].
  rewrite exec_cons. destruct (Hall o) as [Hok|Ho]; [by left| |by rewrite Ho].
  rewrite Hok. apply IH; [intros o'' H; apply Hall; by right|].
  apply elem_of_cons in Hin as [->|Hin]; [congruence|eauto].
Qed.

(** After a list of calls that succeeds, every directory one of them
    asks for exists. *)
Lemma exec_makedirs_present l s s' p :
  exec l s = Ok s' → OMakedirs p ∈ l → isdir s' p = true.
Proof.
  intros H Hin. apply list_elem_of_split in Hin as (l1 & l2 & ->).
  rewrite exec_app in H. apply bind_Ok in H as [t1 [_ H]].
  rewrite exec_cons in H. apply bind_Ok in H as [t2 [H2 H3]].
  cbn [step] in H2. apply (exec_isdir _ _ _ _ H3). by eapply makedirs_isdir.
Qed.

(** In a successful run, each copy the run makes reads its source as
    the initial filesystem has it, and the calls after it succeed. *)
Lemma run_copy_call (order : path → gset string → list string) src tgt copies s0 s' a b :
  incomparable src tgt → listing_ok order →
  replicate order src tgt copies s0 = Ok s' →
  OCopy a b ∈ replicate_ops order src tgt copies s0 →
  ∃ l2 t1 t2, t1 !! a = s0 !! a ∧ copy a b t1 = Ok t2 ∧ exec l2 t2 = Ok s'.
Proof.
  intros Hinc Hord Hrun Hin. rewrite (replicate_eq order src tgt Hinc) in Hrun.
  apply list_elem_of_split in Hin as (l1 & l2 & Hl).
  destruct (replicate_ops_all_ok order src tgt Hinc s0 copies _ _ _ Hord Hl)
    as (Hl1 & Ho & _).
  rewrite Hl, exec_app in Hrun. apply bind_Ok in Hrun as [t1 [H1 H2]].
  rewrite exec_cons in H2. apply bind_Ok in H2 as [t2 [H2 H3]].
  assert (Hinv : run_inv s0 src tgt copies (res_state (exec l1 s0))).
  { eapply exec_inv; [exact Hinc|exact Hl1|]. apply run_inv_init. }
  rewrite H1 in Hinv. destruct Hinv as [Hag _].
  destruct Ho as (D & f & i & _ & _ & -> & _).
  exists l2, t1, t2. split_and!; [|exact H2|exact H3].
  apply Hag. by apply prefix_app_r.
Qed.

(** [shutil.copy] onto a file that already holds the copy, on a disk
    the files fit on (or of an empty file). *)
Lemma copy_onto_copy a b s w o d :
  a ≠ [] → b ≠ [] → a ≠ b → isdir s b = false → (usage s ≤ capacity)%nat ∨ d = [] →
  s !! a = Some (File true w o d) → s !! b = Some (File true w true d) →
  copy a b s = if w then Ok s else Err PermissionError s.
Proof.
  intros Han Hbn Hab Hdir Hu Ha Hb. unfold copy. rewrite Hdir. unfold copyfile.
  rewrite bool_decide_eq_false_2 by done. cbn [andb].
  rewrite (stat_cons_ne s a Han), Ha. cbn [negb].
  rewrite (stat_cons_ne s b Hbn), Hb. destruct w; [|done].
  unfold write_file. rewrite decide_True.
  2: { rewrite usage_insert_delete. rewrite (usage_lookup s b _ Hb) in Hu.
       simpl in Hu |- *. destruct Hu as [Hu| ->]; simpl; lia. }
  cbn [bind]. unfold copymode. rewrite stat_insert_ne by done.
  rewrite (stat_cons_ne s a Han), Ha, stat_insert_eq by done.
  rewrite insert_insert_eq. f_equal. by apply insert_id.
Qed.

(** On the result of a successful run, each call of the run changes
    nothing, except a copy of a read-only file, which raises. *)
Lemma rerun_step (order : path → gset string → list string) src tgt copies s0 s' o :
  incomparable src tgt → listing_ok order → wf s0 → names_ok s0 →
  no_collision s0 src tgt copies →
  replicate order src tgt copies s0 = Ok s' →
  o ∈ replicate_ops order src tgt copies s0 →
  (step o s' = Ok s' ∧ ∀ a b, o = OCopy a b → ∃ o' d, s0 !! a = Some (File true true o' d)) ∨
  (step o s' = Err PermissionError s' ∧
   ∃ a b o' d, o = OCopy a b ∧ s0 !! a = Some (File true false o' d)).
Proof.
  intros Hinc Hord Hwf Hn Hnc Hrun Ho.
  pose proof (replicate_ops_ok order src tgt Hinc s0 copies o Hord Ho) as Hok.
  pose proof (replicate_inv order src tgt Hinc s0 copies Hord) as Hinv.
  rewrite Hrun in Hinv. destruct Hinv as [Hag [Hdirs _]].
  pose proof Hrun as Hr. rewrite (replicate_eq order src tgt Hinc) in Hr.
  destruct o as [p|a b]; cbn [step].
  - left. split; [|by intros a b [=]].
    apply makedirs_exist_ok; [eapply exec_wf; [exact Hwf|exact Hr]|].
    exact (exec_makedirs_present _ _ _ p Hr Ho).
  - destruct (run_copy_call order src tgt copies s0 s' a b Hinc Hord Hrun Ho)
      as (l2 & t1 & t2 & Ea & Hc & He).
    destruct (copy_Ok _ _ _ _ Hc) as (w & o & d & Ha1 & Han & _).
    rewrite Ea in Ha1. rename Ha1 into Ha0.
    assert (Hu : (usage s' ≤ capacity)%nat ∨ d = []).
    { destruct d as [|x d]; [by right|left].
      apply (exec_usage l2 t2 s' He). apply (copy_usage _ _ _ _ Hc). right.
      exists true, w, o, (x :: d). rewrite stat_cons_ne, Ea by done. done. }
    destruct Hok as (D & f & i & Hi & Hf & -> & ->).
    assert (Ha' : s' !! (src ++ D ++ [f]) = Some (File true w o d)).
    { rewrite Hag; [done|by apply prefix_app_r]. }
    assert (Hb' : s' !! gen_path tgt D f i = Some (File true w true d)).
    { rewrite (gen_copied_in order src tgt Hinc s0 copies s' D f i); try done.
      by rewrite Ha0. }
    pose proof (src_ne src tgt Hinc) as Hsn.
    rewrite (copy_onto_copy _ _ s' w o d);
      [| | | |exact (not_dir_gen src tgt Hinc s0 copies s' D f i Hwf Hnc Hdirs Hi Hf)
       |exact Hu|done|done].
    + destruct w; [left|right].
      * split; [done|]. intros a b [= <- _]. eauto.
      * split; [done|]. eauto 6.
    + by destruct src.
    + unfold gen_path. intros E. apply app_eq_nil in E as [_ E].
      apply app_eq_nil in E as [_ E]. discriminate.
    + intros E. apply (under_not_src src tgt Hinc src (gen_path tgt D f i)).
      * unfold gen_path. by apply prefix_app_r.
      * rewrite <- E. by apply prefix_app_r.
      * done.
Qed.

(** Running the script again on what a successful run left changes
    nothing, when every file of the source tree is writable: each
    [os.makedirs] finds its directory, and each [shutil.copy] rewrites a
    copy with the same bytes and mode. *)
Theorem rerun_same (order : path → gset string → list string) src tgt copies s0 s' :
  incomparable src tgt → listing_ok order → wf s0 → names_ok s0 →
  no_collision s0 src tgt copies →
  (∀ D f r w o d, s0 !! (src ++ D ++ [f]) = Some (File r w o d) → w = true) →
  replicate order src tgt copies s0 = Ok s' →
  replicate order src tgt copies s' = Ok s'.
Proof.
  intros Hinc Hord Hwf Hn Hnc Hw Hrun.
  pose proof (replicate_inv order src tgt Hinc s0 copies Hord) as Hinv.
  rewrite Hrun in Hinv. destruct Hinv as [Hag _].
  rewrite (replicate_eq order src tgt Hinc), (rerun_ops_agree order src tgt copies s0 s' Hinc Hag).
  apply exec_all_ok. intros o Ho.
  destruct (rerun_step order src tgt copies s0 s' o Hinc Hord Hwf Hn Hnc Hrun Ho)
    as [[Hok _]|[_ (a & b & o' & d & -> & Ha)]]; [done|].
  pose proof (replicate_ops_ok order src tgt Hinc s0 copies _ Hord Ho)
    as (D & f & i & _ & _ & -> & _).
  discriminate (Hw D f true false o' d Ha).
Qed.

(** Running the script again on what a successful run left raises
    [PermissionError], with nothing changed, when [copies >= 1] and the
    source tree, every directory of which can be listed, holds a
    read-only file: [shutil.copy] gave its copy the same mode, and cannot
    open it for writing. *)
Theorem rerun_readonly (order : path → gset string → list string) src tgt copies s0 s' D f r o d :
  incomparable src tgt → listing_ok order → wf s0 → listable_tree s0 src → names_ok s0 →
  no_collision s0 src tgt copies → (0 < copies)%nat →
  s0 !! (src ++ D ++ [f]) = Some (File r false o d) →
  replicate order src tgt copies s0 = Ok s' →
  replicate order src tgt copies s' = Err PermissionError s'.
Proof.
  intros Hinc Hord Hwf Hlt Hn Hnc Hc Hro Hrun.
  pose proof (replicate_inv order src tgt Hinc s0 copies Hord) as Hinv.
  rewrite Hrun in Hinv. destruct Hinv as [Hag _].
  rewrite (replicate_eq order src tgt Hinc), (rerun_ops_agree order src tgt copies s0 s' Hinc Hag).
  assert (Hin : OCopy (src ++ D ++ [f]) (gen_path tgt D f 0)
                  ∈ replicate_ops order src tgt copies s0).
  { apply (copy_in_ops order src tgt s0 copies 0 D f Hord Hwf Hlt Hc). by exists r, false, o, d. }
  apply exec_stuck.
  - intros o' Ho.
    destruct (rerun_step order src tgt copies s0 s' o' Hinc Hord Hwf Hn Hnc Hrun Ho)
      as [[Hok _]|[Herr _]]; auto.
  - exists (OCopy (src ++ D ++ [f]) (gen_path tgt D f 0)). split; [done|].
    destruct (rerun_step order src tgt copies s0 s' _ Hinc Hord Hwf Hn Hnc Hrun Hin)
      as [[_ Hrw]|[Herr _]]; [|done].
    destruct (Hrw _ _ eq_refl) as (o' & d' & Hd'). congruence.
Qed.

End Rerun.

Lemma rerun_same_witness :
  replicate sorted_order ["S"] ["T"] 2
    (res_state (replicate sorted_order ["S"] ["T"] 2 sample_fs)) =
  Ok (res_state (replicate sorted_order ["S"] ["T"] 2 sample_fs)).
Proof.
  apply (rerun_same sorted_order ["S"] ["T"] 2 sample_fs).
  - exact S_T_incomparable.
  - exact sorted_order_ok.
  - apply wfb_wf. vm_compute. reflexivity.
  - apply names_okb_ok. vm_compute. reflexivity.
  - apply no_collisionb_ok. vm_compute. reflexivity.
  - intros D f r w o d H.
    assert (Hall : map_Forall (λ _ n, match n with File _ w _ _ => w | Dir _ _ => true end = true)
                     sample_fs) by (apply (bool_decide_unpack _); vm_compute; exact I).
    exact (Hall _ _ H).
  - vm_compute. reflexivity.
Defined.

Lemma rerun_readonly_witness :
  replicate sorted_order ["S"] ["T"] 1
    (res_state (replicate sorted_order ["S"] ["T"] 1 readonly_fs)) =
  Err PermissionError (res_state (replicate sorted_order ["S"] ["T"] 1 readonly_fs)).
Proof.
  apply (rerun_readonly sorted_order ["S"] ["T"] 1 readonly_fs _ [] "a.txt" true true
           [Byte.x01]).
  - exact S_T_incomparable.
  - exact sorted_order_ok.
  - apply wfb_wf. vm_compute. reflexivity.
  - apply listable_treeb_ok. vm_compute. reflexivity.
  - apply names_okb_ok. vm_compute. reflexivity.
  - apply no_collisionb_ok. vm_compute. reflexivity.
  - lia.
  - vm_compute. reflexivity.
  - vm_compute. reflexivity.
Defined.

End Extras.
